(** * Beehive: the bee execution context and the stage's connection handler

    A shallow embedding of Go sources of the repository:

    - [bh] embeds the [localBee] methods of the receive context
      (Emit, SendToCellKey, SendToBee, ReplyTo, BeginTx, emitTxMsgs,
      doCommitTx, CommitTx, AbortTx);
    - [actor] embeds [stage.handleConn], the per-connection handshake
      and message loop of the network server;
    - [te] embeds [createHive] and [main] of the traffic-engineering
      example, which set up the hives.

    Go methods on [*localBee] mutate the bee in place and call out to
    collaborators (the hive, the state layer, the replication service).
    They are embedded as computations in a small state monad with an
    extra outcome for [glog.Fatal], which terminates the process. *)

From stdpp Require Import base strings list gmap.
From stdpp Require Import list_numbers pretty.
From Stdlib Require Import ZArith Lia Sorted.

Local Open Scope Z_scope.

Module bh.

(** Go's [error] values are built by [errors.New] from a message. *)
Definition Error := string.

(** Message payloads are [interface{}] in the source; only their identity
    matters here. *)
Definition Data := string.

(** Modelled from the spec: the BeeID record (app name, instance id,
    hosting node) is declared outside the embedded sources. *)
Record BeeID := {
  BeeAppName : string;
  BeeHiveID : string;
  BeeInstanceID : Z;
}.

(** [BeeID{}], Go's zero value. *)
Definition nilBeeID : BeeID :=
  {| BeeAppName := EmptyString; BeeHiveID := EmptyString; BeeInstanceID := 0 |}.

(** Modelled from the spec: the Msg record {From, To, Data, NoReply flag};
    the struct [msg] is declared outside the embedded sources, which only
    use [*msg] values (the type assertion of [ReplyTo] panics on any other
    implementation of [Msg]). *)
Record msg := {
  MsgData : Data;
  MsgFrom : BeeID;
  MsgTo : BeeID;
  MsgNoReply : bool;
}.

(** Modelled from the spec: [newMsgFromData] "constructs a Msg" from the
    data, the sender and the destination. *)
Definition newMsgFromData (d : Data) (from to : BeeID) : msg :=
  {| MsgData := d; MsgFrom := from; MsgTo := to; MsgNoReply := false |}.

(** Modelled from the spec: [m.NoReply()] reads the NoReply flag. *)
Definition NoReply (m : msg) : bool := MsgNoReply m.

(** Modelled from the spec: [m.From()] is the bee that emitted [m]. *)
Definition From (m : msg) : BeeID := MsgFrom m.

(** ** The state layer

    State/Dict is an external contract of the bee; its implementation is
    outside the embedded sources. *)

(** Modelled from the spec: an entry of the "ordered operation log of the
    minimal writes since BeginTx". *)
Inductive StateOp :=
| Put (dict key value : string)
| Del (dict key : string).

(** Modelled from the spec: "partitioned key-value mapping with
    transactional begin/commit/abort and an operation log".  [Dicts] holds
    the committed entries by dictionary name and key, [StOps] the log of
    the open transaction. *)
Record TxState := {
  Dicts : gmap (string * string) string;
  StOpen : bool;
  StOps : list StateOp;
}.

(** Modelled from the spec: [newState(b.app)], a state with no entry and
    no transaction. *)
Definition newState : TxState :=
  {| Dicts := ∅; StOpen := false; StOps := [] |}.

Definition applyOp (d : gmap (string * string) string) (o : StateOp)
  : gmap (string * string) string :=
  match o with
  | Put n k v => <[(n, k) := v]> d
  | Del n k => delete (n, k) d
  end.

(** Modelled from the spec: BeginTx "starts the state layer's
    transactional tracking". *)
Definition stateBegin (s : TxState) : TxState :=
  {| Dicts := Dicts s; StOpen := true; StOps := [] |}.

(** Modelled from the spec: a commit "applies Ops to the local
    partition", in log order. *)
Definition stateCommit (s : TxState) : TxState :=
  {| Dicts := fold_left applyOp (StOps s) (Dicts s); StOpen := false; StOps := [] |}.

(** Modelled from the spec: an abort "rolls back pending state writes". *)
Definition stateAbort (s : TxState) : TxState :=
  {| Dicts := Dicts s; StOpen := false; StOps := [] |}.

(** Modelled from the spec: while a transaction is open "Dict writes
    accumulate in the state layer rather than applying immediately". *)
Definition stateWrite (o : StateOp) (s : TxState) : TxState :=
  if StOpen s
  then {| Dicts := Dicts s; StOpen := true; StOps := StOps s ++ [o] |}
  else {| Dicts := applyOp (Dicts s) o; StOpen := false; StOps := StOps s |}.

(** ** The transaction record

    The struct [Tx] and its methods [IsOpen], [AddMsg] and [Reset] are
    declared outside the embedded sources. *)

(** Modelled from the spec: "Status ∈ {Closed, Open}". *)
Inductive TxStatus := TxClosed | TxOpen.

(** Modelled from the spec: "Transaction: per-bee mutable record
    {Status, Generation, Seq (monotonic per-bee counter), Msgs (buffered
    outbound), Ops (ordered write log)}".  A nil slice and an empty one
    behave alike in the embedded methods and are both the empty list. *)
Record Tx := {
  Status : TxStatus;
  Generation : Z;
  Seq : Z;
  Msgs : list msg;
  Ops : list StateOp;
}.

(** Modelled from the spec: the transaction is Open. *)
Definition IsOpen (t : Tx) : bool :=
  match Status t with TxOpen => true | TxClosed => false end.

(** Modelled from the spec: "append to Msgs". *)
Definition AddMsg (m : msg) (t : Tx) : Tx :=
  {| Status := Status t; Generation := Generation t; Seq := Seq t;
     Msgs := Msgs t ++ [m]; Ops := Ops t |}.

(** Modelled from the spec: [Reset] "discards Msgs/Ops" and "resets to
    Closed"; Generation and the per-bee counter Seq stay. *)
Definition Reset (t : Tx) : Tx :=
  {| Status := TxClosed; Generation := Generation t; Seq := Seq t;
     Msgs := []; Ops := [] |}.

Definition setStatus (s : TxStatus) (t : Tx) : Tx :=
  {| Status := s; Generation := Generation t; Seq := Seq t;
     Msgs := Msgs t; Ops := Ops t |}.

Definition setGeneration (g : Z) (t : Tx) : Tx :=
  {| Status := Status t; Generation := g; Seq := Seq t;
     Msgs := Msgs t; Ops := Ops t |}.

Definition setSeq (n : Z) (t : Tx) : Tx :=
  {| Status := Status t; Generation := Generation t; Seq := n;
     Msgs := Msgs t; Ops := Ops t |}.

Definition setOps (o : list StateOp) (t : Tx) : Tx :=
  {| Status := Status t; Generation := Generation t; Seq := Seq t;
     Msgs := Msgs t; Ops := o |}.

(** ** Colony, app and bee *)

(** Modelled from the spec: "Colony: {Generation (monotonic epoch),
    Members (replica endpoints)}". *)
Module Colony.
Record t := {
  Generation : Z;
  Members : list BeeID;
}.
End Colony.

(** What the embedded methods ask of the bee's app:
    [b.app.ReplicationFactor()]. *)
Record app := {
  Name : string;
  ReplicationFactor : Z;
}.

(** The fields of [localBee] that the embedded methods read or write.
    [state] is [nil] until [txState] first needs it. *)
Record localBee := {
  beeID : BeeID;
  tx : Tx;
  state : option TxState;
  beeColony : Colony.t;
  beeApp : app;
}.

Definition withTx (f : Tx -> Tx) (b : localBee) : localBee :=
  {| beeID := beeID b; tx := f (tx b); state := state b;
     beeColony := beeColony b; beeApp := beeApp b |}.

Definition withState (s : TxState) (b : localBee) : localBee :=
  {| beeID := beeID b; tx := tx b; state := Some s;
     beeColony := beeColony b; beeApp := beeApp b |}.

(** ** Calls that leave the bee

    Every call to a collaborator is recorded, in program order.  The
    messages handed to [hive.emitMsg] are the messages forwarded to the
    network. *)
Inductive Event :=
| EvEmit (m : msg)
| EvStateBeginTx (r : option Error)
| EvStateCommitTx (r : option Error)
| EvStateAbortTx (r : option Error)
| EvReplicateTx (t : Tx) (r : option Error)
| EvNotifyCommitTx (seq : Z) (r : option Error).

Record World := {
  bee : localBee;
  history : list Event;
}.

Definition record (e : Event) (w : World) : World :=
  {| bee := bee w; history := history w ++ [e] |}.

Definition onBee (f : localBee -> localBee) (w : World) : World :=
  {| bee := f (bee w); history := history w |}.

(** The messages forwarded so far, oldest first. *)
Fixpoint emitted (h : list Event) : list msg :=
  match h with
  | [] => []
  | EvEmit m :: h' => m :: emitted h'
  | _ :: h' => emitted h'
  end.

Definition sent (w : World) : list msg := emitted (history w).

(** The state [b.txState()] answers with: the bee's own, or a new one. *)
Definition theState (b : localBee) : TxState :=
  match state b with
  | Some s => s
  | None => newState
  end.

(** The sequence number in the bee's transaction record. *)
Definition seqOf (w : World) : Z := Seq (tx (bee w)).

Definition isStateCommitTx (e : Event) : bool :=
  match e with EvStateCommitTx _ => true | _ => false end.

Definition isReplicateTx (e : Event) : bool :=
  match e with EvReplicateTx _ _ => true | _ => false end.

(** The committed contents of the bee's dictionaries. *)
Definition committed (w : World) : gmap (string * string) string :=
  Dicts (theState (bee w)).

(** The parts of a bee that no embedded method assigns. *)
Definition fixedPart (b : localBee) : BeeID * Colony.t * app :=
  (beeID b, beeColony b, beeApp b).

(** ** Outcomes

    A method either returns to its caller or dies in [glog.Fatal]. *)
Inductive outcome (A : Type) : Type :=
| Ret (a : A) (w : World)
| Fatal (w : World).
Arguments Ret {A} a w.
Arguments Fatal {A} w.

Definition M (A : Type) : Type := World -> outcome A.

Definition ret {A} (a : A) : M A := fun w => Ret a w.

Definition bind {A B} (m : M A) (k : A -> M B) : M B :=
  fun w => match m w with
           | Ret a w' => k a w'
           | Fatal w' => Fatal w'
           end.

Definition glogFatal {A} : M A := fun w => Fatal w.

Definition getBee : M localBee := fun w => Ret (bee w) w.
Definition modifyBee (f : localBee -> localBee) : M unit :=
  fun w => Ret tt (onBee f w).
Definition modifyTx (f : Tx -> Tx) : M unit := modifyBee (withTx f).
Definition emitEvent (e : Event) : M unit := fun w => Ret tt (record e w).

Declare Scope go_scope.
Delimit Scope go_scope with go.
Notation "x <- c1 ;; c2" := (bind c1 (fun x => c2))
  (at level 100, c1 at next level, right associativity) : go_scope.
Notation "c1 ;;; c2" := (bind c1 (fun _ => c2))
  (at level 100, right associativity) : go_scope.

Definition worldOf {A} (o : outcome A) : World :=
  match o with Ret _ w => w | Fatal w => w end.

Local Open Scope go_scope.

(** ** Collaborators

    The replication service, the commit notification and the error
    results of the state layer are outside the embedded sources.  Each is
    a parameter: its answer may depend on everything that happened so far.
    The integer type of [Tx.Seq] is declared outside the embedded sources
    too; [b.tx.Seq++] wraps around at [2 ^ seqBits]. *)
Record Env := {
  seqBits : N;
  replicateTxResult : World -> option Error;
  notifyCommitTxResult : World -> option Error;
  stateBeginTxResult : World -> option Error;
  stateCommitTxResult : World -> option Error;
  stateAbortTxResult : World -> option Error;
}.

Definition seqModulus (E : Env) : Z := 2 ^ Z.of_N (seqBits E).

Section Bee.

Context (E : Env).

Definition ask (f : Env -> World -> option Error) : M (option Error) :=
  fun w => Ret (f E w) w.

(** Modelled from the spec: [b.id()], the identity of the bee. *)
Definition id (b : localBee) : BeeID := beeID b.

(** Modelled from the spec: [b.colonyUnsafe()], "the current Colony
    view" of the bee. *)
Definition colonyUnsafe (b : localBee) : Colony.t := beeColony b.

(** [b.hive.emitMsg(msg)] hands the message to the hive for forwarding. *)
Definition doEmit (m : msg) : M unit := emitEvent (EvEmit m).

Definition bufferOrEmit (m : msg) : M unit :=
  b <- getBee ;;
  if negb (IsOpen (tx b)) then doEmit m
  else modifyTx (AddMsg m).

Definition Emit (msgData : Data) : M unit :=
  b <- getBee ;;
  bufferOrEmit (newMsgFromData msgData (id b) nilBeeID).

Definition SendToCellKey (msgData : Data) (to : string) (dk : string * string)
  : M unit :=
  @glogFatal unit ;;;
  b <- getBee ;;
  bufferOrEmit (newMsgFromData msgData (id b) nilBeeID).

Definition SendToBee (msgData : Data) (to : BeeID) : M unit :=
  b <- getBee ;;
  bufferOrEmit (newMsgFromData msgData (id b) to).

Definition ReplyTo (thatMsg : msg) (replyData : Data) : M (option Error) :=
  if NoReply thatMsg then ret (Some "Cannot reply to this message."%string)
  else
    SendToBee replyData (From thatMsg) ;;;
    ret None.

Definition txState : M TxState :=
  b <- getBee ;;
  match state b with
  | None => modifyBee (withState newState) ;;; ret newState
  | Some s => ret s
  end.

(** The three transactional hooks of the state layer, [Tx()] and a dict
    write, each reached through [b.txState()]. *)
Definition stateBeginTx : M (option Error) :=
  s <- txState ;;
  r <- ask stateBeginTxResult ;;
  emitEvent (EvStateBeginTx r) ;;;
  match r with
  | Some e => ret (Some e)
  | None => modifyBee (withState (stateBegin s)) ;;; ret None
  end.

Definition stateCommitTx : M (option Error) :=
  s <- txState ;;
  r <- ask stateCommitTxResult ;;
  emitEvent (EvStateCommitTx r) ;;;
  match r with
  | Some e => ret (Some e)
  | None => modifyBee (withState (stateCommit s)) ;;; ret None
  end.

Definition stateAbortTx : M (option Error) :=
  s <- txState ;;
  r <- ask stateAbortTxResult ;;
  emitEvent (EvStateAbortTx r) ;;;
  match r with
  | Some e => ret (Some e)
  | None => modifyBee (withState (stateAbort s)) ;;; ret None
  end.

Definition stateTx : M (list StateOp) :=
  s <- txState ;;
  ret (StOps s).

Definition statePut (o : StateOp) : M unit :=
  s <- txState ;;
  modifyBee (withState (stateWrite o s)).

(** [b.replicateTx(&b.tx)] and [b.notifyCommitTx(seq)] *)
Definition replicateTx : M (option Error) :=
  b <- getBee ;;
  r <- ask replicateTxResult ;;
  emitEvent (EvReplicateTx (tx b) r) ;;;
  ret r.

Definition notifyCommitTx (seq : Z) : M (option Error) :=
  r <- ask notifyCommitTxResult ;;
  emitEvent (EvNotifyCommitTx seq r) ;;;
  ret r.

Definition BeginTx : M (option Error) :=
  b <- getBee ;;
  if IsOpen (tx b) then ret (Some "Another tx is open."%string)
  else
    err <- stateBeginTx ;;
    match err with
    | Some e => ret (Some e)
    | None =>
        modifyTx (setStatus TxOpen) ;;;
        b <- getBee ;;
        modifyTx (setGeneration (Colony.Generation (beeColony b))) ;;;
        modifyTx (fun t => setSeq ((Seq t + 1) mod seqModulus E) t) ;;;
        ret None
    end.

Fixpoint forMsgs (ms : list msg) (f : msg -> M unit) : M unit :=
  match ms with
  | [] => ret tt
  | m :: ms' => f m ;;; forMsgs ms' f
  end.

Definition emitTxMsgs : M unit :=
  b <- getBee ;;
  match Msgs (tx b) with
  | [] => ret tt
  | ms => forMsgs ms doEmit
  end.

(** [defer b.tx.Reset()] runs once the result of the state layer's commit
    has been computed. *)
Definition doCommitTx : M (option Error) :=
  emitTxMsgs ;;;
  err <- stateCommitTx ;;
  modifyTx Reset ;;;
  ret err.

Definition AbortTx : M (option Error) :=
  b <- getBee ;;
  if negb (IsOpen (tx b)) then ret None
  else
    modifyTx Reset ;;;
    stateAbortTx.

Definition CommitTx : M (option Error) :=
  b <- getBee ;;
  if negb (IsOpen (tx b)) then ret None
  else
    modifyTx (setGeneration (Colony.Generation (colonyUnsafe b))) ;;;
    (if ReplicationFactor (beeApp b) <? 2
     then doCommitTx ;;; ret tt
     else ret tt) ;;;
    ops <- stateTx ;;
    modifyTx (setOps ops) ;;;
    err <- replicateTx ;;
    match err with
    | Some e =>
        AbortTx ;;;
        ret (Some e)
    | None =>
        err <- doCommitTx ;;
        match err with
        | Some _ => glogFatal
        | None =>
            b <- getBee ;;
            notifyCommitTx (Seq (tx b)) ;;;
            ret None
        end
    end.

(** [CommitTx] from the collection of the operation log on, which is
    where the fast path of a small replication factor joins the
    replicated path. *)
Definition replicateThenCommit : M (option Error) :=
  ops <- stateTx ;;
  modifyTx (setOps ops) ;;;
  err <- replicateTx ;;
  match err with
  | Some e =>
      AbortTx ;;;
      ret (Some e)
  | None =>
      err <- doCommitTx ;;
      match err with
      | Some _ => glogFatal
      | None =>
          b <- getBee ;;
          notifyCommitTx (Seq (tx b)) ;;;
          ret None
      end
  end.

(** ** Handler calls

    What a handler can do with its receive context, as far as the
    embedded methods go.  [Lock] and [StartDetached] only talk to the
    control loop and are left out. *)
Inductive Call :=
| CallEmit (msgData : Data)
| CallSendToCellKey (msgData : Data) (to : string) (dk : string * string)
| CallSendToBee (msgData : Data) (to : BeeID)
| CallReplyTo (thatMsg : msg) (replyData : Data)
| CallDictWrite (o : StateOp)
| CallBeginTx
| CallCommitTx
| CallAbortTx.

Definition exec (c : Call) : M (option Error) :=
  match c with
  | CallEmit d => Emit d ;;; ret None
  | CallSendToCellKey d to dk => SendToCellKey d to dk ;;; ret None
  | CallSendToBee d to => SendToBee d to ;;; ret None
  | CallReplyTo m d => ReplyTo m d
  | CallDictWrite o => statePut o ;;; ret None
  | CallBeginTx => BeginTx
  | CallCommitTx => CommitTx
  | CallAbortTx => AbortTx
  end.

Definition isBeginTx (c : Call) : bool :=
  match c with CallBeginTx => true | _ => false end.

(** The calls are made one after the other until one of them is fatal. *)
Fixpoint run (cs : list Call) (w : World) : World :=
  match cs with
  | [] => w
  | c :: cs' =>
      match exec c w with
      | Ret _ w' => run cs' w'
      | Fatal w' => w'
      end
  end.

(** The sequence numbers handed out by the successful [BeginTx] calls of
    a run, in the order of the calls. *)
Fixpoint begun (cs : list Call) (w : World) : list Z :=
  match cs with
  | [] => []
  | c :: cs' =>
      match exec c w with
      | Ret r w' =>
          match c, r with
          | CallBeginTx, None => Seq (tx (bee w')) :: begun cs' w'
          | _, _ => begun cs' w'
          end
      | Fatal _ => []
      end
  end.

(** How many of the calls are [BeginTx]. *)
Fixpoint beginCalls (cs : list Call) : nat :=
  match cs with
  | [] => O
  | c :: cs' => if isBeginTx c then S (beginCalls cs') else beginCalls cs'
  end.

End Bee.

(** ** Sample collaborators and bees *)

(** Every collaborator succeeds; [Seq] is a 64-bit counter. *)
Definition envOk : Env :=
  {| seqBits := 64;
     replicateTxResult := fun _ => None;
     notifyCommitTxResult := fun _ => None;
     stateBeginTxResult := fun _ => None;
     stateCommitTxResult := fun _ => None;
     stateAbortTxResult := fun _ => None |}.

(** As [envOk], but replication never reaches its quorum. *)
Definition envNoQuorum : Env :=
  {| seqBits := 64;
     replicateTxResult := fun _ => Some "quorum not reached"%string;
     notifyCommitTxResult := fun _ => None;
     stateBeginTxResult := fun _ => None;
     stateCommitTxResult := fun _ => None;
     stateAbortTxResult := fun _ => None |}.

Definition bee7 : BeeID :=
  {| BeeAppName := "Counter"; BeeHiveID := "hive1"; BeeInstanceID := 7 |}.

Definition bee9 : BeeID :=
  {| BeeAppName := "Counter"; BeeHiveID := "hive2"; BeeInstanceID := 9 |}.

(** A bee of an app with replication factor [rf], no transaction yet,
    whose counter stands at [seq]. *)
Definition freshBee (rf seq : Z) : localBee :=
  {| beeID := bee7;
     tx := {| Status := TxClosed; Generation := 0; Seq := seq;
              Msgs := []; Ops := [] |};
     state := None;
     beeColony := {| Colony.Generation := 3; Colony.Members := [bee7; bee9] |};
     beeApp := {| Name := "Counter"; ReplicationFactor := rf |} |}.

Definition freshWorld (rf seq : Z) : World :=
  {| bee := freshBee rf seq; history := [] |}.

(** Scenario C and D of the spec up to the commit: BeginTx, Emit(A), a
    write of key x, SendToBee(B). *)
Definition scenario : list Call :=
  [CallBeginTx; CallEmit "A"; CallDictWrite (Put "d" "x" "1");
   CallSendToBee "B" bee9].

Definition msgA : msg := newMsgFromData "A" bee7 nilBeeID.
Definition msgB : msg := newMsgFromData "B" bee7 bee9.

(** The bee of an app with replication factor [rf] at the point where
    the scenario is about to call CommitTx: its transaction is open and
    holds A and B, and the write of x is pending in the state layer. *)
Definition beforeCommit (rf : Z) : World :=
  run envOk scenario (freshWorld rf 0).

(** Two transactions, the first one begun, filled and committed, the
    second one begun and aborted, and a third one begun. *)
Definition threeTransactions : list Call :=
  scenario ++ [CallCommitTx; CallBeginTx; CallAbortTx; CallBeginTx].

(** A bee whose counter is two short of the limit of a 64-bit counter. *)
Definition nearLimit : World := freshWorld 2 (2 ^ 64 - 2).

Definition twoTransactions : list Call :=
  [CallBeginTx; CallAbortTx; CallBeginTx].

(** What [bufferOrEmit m] leaves behind: with a transaction open, [m] at
    the end of the buffer and the history as it was; without, [m]
    forwarded and the transaction record as it was. *)
Definition bufferedOrSent (m : msg) (w w' : World) : Prop :=
  if IsOpen (tx (bee w))
  then Msgs (tx (bee w')) = Msgs (tx (bee w)) ++ [m] /\
       history w' = history w /\
       sent w' = sent w
  else sent w' = sent w ++ [m] /\
       history w' = history w ++ [EvEmit m] /\
       tx (bee w') = tx (bee w).

(** ** Whole transactions *)

(** No message is buffered unless a transaction is open. *)
Definition txClean (w : World) : Prop :=
  IsOpen (tx (bee w)) = false -> Msgs (tx (bee w)) = [].

(** The calls that only buffer or forward a message or write to a
    dictionary. *)
Definition isBufferCall (c : Call) : bool :=
  match c with
  | CallEmit _ | CallSendToBee _ _ | CallReplyTo _ _ | CallDictWrite _ => true
  | _ => false
  end.

(** The messages a bee with identity [from] builds in a run of such
    calls, and the dictionary operations of the run, in call order. *)
Fixpoint bodyMsgs (from : BeeID) (cs : list Call) : list msg :=
  match cs with
  | [] => []
  | CallEmit d :: cs' => newMsgFromData d from nilBeeID :: bodyMsgs from cs'
  | CallSendToBee d to :: cs' => newMsgFromData d from to :: bodyMsgs from cs'
  | CallReplyTo m d :: cs' =>
      if NoReply m then bodyMsgs from cs'
      else newMsgFromData d from (From m) :: bodyMsgs from cs'
  | _ :: cs' => bodyMsgs from cs'
  end.

Fixpoint bodyOps (cs : list Call) : list StateOp :=
  match cs with
  | [] => []
  | CallDictWrite o :: cs' => o :: bodyOps cs'
  | _ :: cs' => bodyOps cs'
  end.

(** As [envOk], but the replicas cannot be notified. *)
Definition envNotifyFails : Env :=
  {| seqBits := 64;
     replicateTxResult := fun _ => None;
     notifyCommitTxResult := fun _ => Some "replicas unreachable"%string;
     stateBeginTxResult := fun _ => None;
     stateCommitTxResult := fun _ => None;
     stateAbortTxResult := fun _ => None |}.

(** As [envOk], but the state layer refuses to commit. *)
Definition envCommitFails : Env :=
  {| seqBits := 64;
     replicateTxResult := fun _ => None;
     notifyCommitTxResult := fun _ => None;
     stateBeginTxResult := fun _ => None;
     stateCommitTxResult := fun _ => Some "commit failed"%string;
     stateAbortTxResult := fun _ => None |}.

(** As [envOk], but the state layer refuses to begin. *)
Definition envBeginFails : Env :=
  {| seqBits := 64;
     replicateTxResult := fun _ => None;
     notifyCommitTxResult := fun _ => None;
     stateBeginTxResult := fun _ => Some "state busy"%string;
     stateCommitTxResult := fun _ => None;
     stateAbortTxResult := fun _ => None |}.

(** The calls of the scenario between BeginTx and the commit. *)
Definition scenarioBody : list Call :=
  [CallEmit "A"; CallDictWrite (Put "d" "x" "1"); CallSendToBee "B" bee9].

End bh.

(** * The stage's connection handler *)

Module actor.

(** Modelled from the spec: "RcvrId: wire record {ActorName, Id}"; the
    struct is declared outside the embedded source. *)
Record RcvrId := {
  ActorName : string;
  Id : Z;
}.

(** [var id RcvrId], Go's zero value. *)
Definition zeroRcvrId : RcvrId := {| ActorName := EmptyString; Id := 0 |}.

(** Modelled from the spec: a Msg record carries its Type and its Data;
    [m.Type()] reads the former. *)
Record msg := {
  msgType : string;
  msgData : string;
}.

(** Handlers and receivers are interface values; the handler of a
    connection only passes them on. *)
Definition Handler := string.
Definition receiver := Z.

(** An entry of [s.mappers]: [actorName] stands for
    [mh.mapr.ctx.actor.Name()]. *)
Record mapperAndHandler := {
  actorName : string;
  handler : Handler;
}.

(** Modelled from the spec: the control loop of an actor answers
    [findReceiver(id)] with a receiver or not-found; [rcvrs] is the
    registry it consults. *)
Record actorRec := {
  rcvrs : gmap Z receiver;
}.

Record stage := {
  actors : gmap string actorRec;
  mappers : gmap string (list mapperAndHandler);
}.

(** Modelled from the spec: [s.actor(name)] answers with the actor
    registered under the name, or with an error. *)
Definition actor (s : stage) (name : string) : option actorRec :=
  actors s !! name.

(** Modelled from the spec: the round trip
    [a.mapper.ctrlCh <- routineCmd{findRcvr, id.Id, resCh}] followed by
    [<-resCh] is a "synchronous round trip with a dedicated result slot";
    the control loop's answer is a receiver, or nil ([None]). *)
Definition findRcvr (a : actorRec) (id : Z) : option receiver :=
  rcvrs a !! id.

(** What the peer put on the connection, record by record.  [WireOther]
    is anything the decoder cannot turn into the record asked for. *)
Inductive wire :=
| WireRcvrId (id : RcvrId)
| WireMsg (m : msg)
| WireOther.

(** What the handler does to the connection and to the receiver, in
    program order. *)
Inductive Event :=
| EvDecodeRcvrId (id : RcvrId)
| EvEncode (b : bool)
| EvDecodeMsg (m : option msg)
| EvEnque (r : receiver) (m : msg) (h : Handler)
| EvClose.

(** [dec.Decode(&id)]: the error is dropped, and [id] keeps its zero
    value when there is no RcvrId to read. *)
Definition decodeRcvrId (input : list wire) : RcvrId * list wire :=
  match input with
  | WireRcvrId id :: rest => (id, rest)
  | _ :: rest => (zeroRcvrId, rest)
  | [] => (zeroRcvrId, [])
  end.

(** The handlers of the mappers registered for one message type that
    belong to the addressed actor, in registration order. *)
Fixpoint handlersOf (name : string) (mhs : list mapperAndHandler) : list Handler :=
  match mhs with
  | [] => []
  | mh :: mhs' =>
      if String.eqb (actorName mh) name
      then handler mh :: handlersOf name mhs'
      else handlersOf name mhs'
  end.

(** [s.mappers[t]]: a missing key reads as the empty slice. *)
Definition mappersFor (s : stage) (t : string) : list mapperAndHandler :=
  match mappers s !! t with
  | Some mhs => mhs
  | None => []
  end.

(** The message loop.  It ends at the first record that does not decode
    as a message, the end of the stream included. *)
Fixpoint serve (s : stage) (id : RcvrId) (rcvr : receiver)
    (handlers : gmap string (list Handler)) (input : list wire) : list Event :=
  match input with
  | WireMsg m :: rest =>
      let (hs, handlers') :=
        match handlers !! msgType m with
        | Some hs => (hs, handlers)
        | None =>
            let hs := handlersOf (ActorName id) (mappersFor s (msgType m)) in
            (hs, <[msgType m := hs]> handlers)
        end in
      EvDecodeMsg (Some m) :: map (EvEnque rcvr m) hs
        ++ serve s id rcvr handlers' rest
  | _ => [EvDecodeMsg None]
  end.

(** [defer conn.Close()] puts the close at the end of every path. *)
Definition handleConn (s : stage) (input : list wire) : list Event :=
  let (id, rest) := decodeRcvrId input in
  EvDecodeRcvrId id ::
  match actor s (ActorName id) with
  | None => []
  | Some a =>
      match findRcvr a (Id id) with
      | None => []
      | Some rcvr => EvEncode true :: serve s id rcvr ∅ rest
      end
  end ++ [EvClose].

(** The receiver a RcvrId resolves to, if any. *)
Definition resolve (s : stage) (id : RcvrId) : option receiver :=
  match actor s (ActorName id) with
  | Some a => findRcvr a (Id id)
  | None => None
  end.

(** What the handler wrote back on the connection. *)
Fixpoint written (t : list Event) : list bool :=
  match t with
  | [] => []
  | EvEncode b :: t' => b :: written t'
  | _ :: t' => written t'
  end.

(** The events of the message loop on behalf of receiver [rcvr]. *)
Definition isLoopEvent (rcvr : receiver) (e : Event) : bool :=
  match e with
  | EvDecodeMsg _ => true
  | EvEnque r _ _ => Z.eqb r rcvr
  | _ => false
  end.

(** The message loop without its cache: every message is matched against
    the stage's mappers anew. *)
Fixpoint dispatch (s : stage) (id : RcvrId) (rcvr : receiver)
    (input : list wire) : list Event :=
  match input with
  | WireMsg m :: rest =>
      EvDecodeMsg (Some m)
        :: map (EvEnque rcvr m) (handlersOf (ActorName id) (mappersFor s (msgType m)))
        ++ dispatch s id rcvr rest
  | _ => [EvDecodeMsg None]
  end.

Definition isWireMsg (x : wire) : bool :=
  match x with WireMsg _ => true | _ => false end.


(** ** A sample stage: scenarios A and B of the spec *)

Definition counterStage : stage :=
  {| actors := {[ "Counter"%string := {| rcvrs := {[ 7 := 70 ]} |} ]};
     mappers := {[ "Incr"%string :=
                     [ {| actorName := "Counter"; handler := "incr1" |};
                       {| actorName := "Logger"; handler := "log" |};
                       {| actorName := "Counter"; handler := "incr2" |} ] ]} |}.

Definition incr (d : string) : msg := {| msgType := "Incr"; msgData := d |}.

End actor.

(** * The traffic-engineering example: hive set-up *)

Module te.

(** Go's [int] on a 64-bit platform: results of arithmetic wrap around. *)
Definition wrap64 (z : Z) : Z := (z + 2 ^ 63) mod 2 ^ 64 - 2 ^ 63.

(** The messages the set-up emits.  [Switch(i)] is the conversion of the
    loop counter to the switch type, which is declared outside the
    embedded source; the counter itself stands for it. *)
Inductive Msg :=
| MatrixUpdate
| StatQuery (switch : Z)
| SwitchJoined (switch : Z).

(** The handlers the set-up registers.  The threshold of the collector,
    [uint64(maxSpike * (1 - elephantProb))], is floating-point arithmetic
    and is left out. *)
Inductive handler :=
| Poller
| Collector
| SwitchJoinHandler
| UpdateHandler
| Driver (first count : Z).

(** The calls of the set-up into the hive library, in program order. *)
Inductive Action :=
| NewHiveWithConfig (hiveAddr : string)
| NewApp (name : string)
| Detached (app : string) (h : handler)
| Handle (app msgType : string) (h : handler)
| SetSticky (app : string) (sticky : bool)
| Emit (m : Msg)
| RegisterMsg (msgType : string)
| Start
| Sleep.

(** [for i := lo; i < hi; i++ { body(i) }].  The fuel only bounds the
    recursion; the loop ends on its test. *)
Fixpoint forLoop (fuel : nat) (i hi : Z) (body : Z -> Action) : list Action :=
  match fuel with
  | O => []
  | S fuel' =>
      if i <? hi then body i :: forLoop fuel' (wrap64 (i + 1)) hi body
      else []
  end.

Definition forRange (lo hi : Z) (body : Z -> Action) : list Action :=
  forLoop (Z.to_nat (hi - lo)) lo hi body.

Definition createHive (hiveAddr : string) (minDriver maxDriver minCol maxCol : Z)
    (stickyCollector lockRouter : bool) : list Action :=
  let driver := Driver minDriver (wrap64 (maxDriver - minDriver)) in
  [NewHiveWithConfig hiveAddr;
   NewApp "Collector";
   Detached "Collector" Poller;
   Handle "Collector" "StatResult" Collector;
   Handle "Collector" "SwitchJoined" SwitchJoinHandler;
   SetSticky "Collector" stickyCollector;
   NewApp "Router";
   Handle "Router" "MatrixUpdate" UpdateHandler;
   SetSticky "Router" true;
   NewApp "Driver";
   Handle "Driver" "StatQuery" driver;
   Handle "Driver" "FlowMod" driver;
   SetSticky "Driver" true]
  ++ (if lockRouter then [Emit MatrixUpdate] else [])
  ++ (if negb (maxDriver =? minDriver)
      then Detached "Driver" driver
             :: forRange minDriver maxDriver (fun i => Emit (StatQuery i))
      else [])
  ++ (if negb (maxCol =? minCol)
      then forRange minCol maxCol (fun i => Emit (SwitchJoined i))
      else [])
  ++ [RegisterMsg "SwitchStats"; Start].

(** The command-line flags of [main] that are integers or booleans; the
    flag [-p] (a float) only enters the collector's threshold. *)
Record Flags := {
  nswitches : Z;
  nhives : Z;
  stickycollectors : bool;
  centralized : bool;
}.

(** [fmt.Sprintf("127.0.0.1:%d", port)] *)
Definition hiveAddrOf (port : Z) : string := "127.0.0.1:" +:+ pretty port.

(** The loop [for h := 0; h < *nhives; h++] of [main], with [port] carried
    from one iteration to the next.  The fuel only bounds the recursion. *)
Fixpoint hiveLoop (f : Flags) (driverPerHive collectorPerHive : Z)
    (fuel : nat) (h port : Z) : list Action :=
  match fuel with
  | O => []
  | S fuel' =>
      if h <? nhives f then
        (if centralized f && (h =? 0)
         then createHive (hiveAddrOf port)
                (wrap64 (h * driverPerHive)) (wrap64 (wrap64 (h + 1) * driverPerHive))
                0 (nswitches f) (stickycollectors f) true
              ++ [Sleep]
         else createHive (hiveAddrOf port)
                (wrap64 (h * driverPerHive)) (wrap64 (wrap64 (h + 1) * driverPerHive))
                (wrap64 (h * collectorPerHive)) (wrap64 (wrap64 (h + 1) * collectorPerHive))
                (stickycollectors f) false)
        ++ hiveLoop f driverPerHive collectorPerHive fuel' (wrap64 (h + 1)) (wrap64 (port + 1))
      else []
  end.

(** [main] up to the point where it waits for the hives to join.  [None]
    is the run-time panic of an integer division by zero. *)
Definition main (f : Flags) : option (list Action) :=
  if nhives f =? 0 then None
  else
    let driverPerHive := wrap64 (Z.quot (nswitches f) (nhives f)) in
    let collectorPerHive :=
      if centralized f then 0 else wrap64 (Z.quot (nswitches f) (nhives f)) in
    Some (hiveLoop f driverPerHive collectorPerHive (Z.to_nat (nhives f)) 0 7777).

(** What a trace emits, in order, and parts of it. *)
Fixpoint emits (t : list Action) : list Msg :=
  match t with
  | [] => []
  | Emit m :: t' => m :: emits t'
  | _ :: t' => emits t'
  end.

Fixpoint statQueries (ms : list Msg) : list Z :=
  match ms with
  | [] => []
  | StatQuery i :: ms' => i :: statQueries ms'
  | _ :: ms' => statQueries ms'
  end.

Fixpoint switchJoins (ms : list Msg) : list Z :=
  match ms with
  | [] => []
  | SwitchJoined i :: ms' => i :: switchJoins ms'
  | _ :: ms' => switchJoins ms'
  end.

Fixpoint matrixUpdates (ms : list Msg) : nat :=
  match ms with
  | [] => O
  | MatrixUpdate :: ms' => S (matrixUpdates ms')
  | _ :: ms' => matrixUpdates ms'
  end.

(** The addresses of the hives a trace creates, in order. *)
Fixpoint hiveAddrs (t : list Action) : list string :=
  match t with
  | [] => []
  | NewHiveWithConfig a :: t' => a :: hiveAddrs t'
  | _ :: t' => hiveAddrs t'
  end.

(** The drivers a trace registers for StatQuery: first switch and number
    of switches. *)
Fixpoint drivers (t : list Action) : list (Z * Z) :=
  match t with
  | [] => []
  | Handle _ msgType (Driver first count) :: t' =>
      if String.eqb msgType "StatQuery" then (first, count) :: drivers t'
      else drivers t'
  | _ :: t' => drivers t'
  end.

(** The values of Go's [int]. *)
Definition int64 (z : Z) : Prop := - 2 ^ 63 <= z < 2 ^ 63.

(** The set-up of hive number [h], with the arithmetic of [main] done in
    the integers. *)
Definition hiveTrace (f : Flags) (h : Z) : list Action :=
  let driverPerHive := Z.quot (nswitches f) (nhives f) in
  let collectorPerHive := if centralized f then 0 else driverPerHive in
  if centralized f && (h =? 0)
  then createHive (hiveAddrOf (7777 + h))
         (h * driverPerHive) ((h + 1) * driverPerHive)
         0 (nswitches f) (stickycollectors f) true
       ++ [Sleep]
  else createHive (hiveAddrOf (7777 + h))
         (h * driverPerHive) ((h + 1) * driverPerHive)
         (h * collectorPerHive) ((h + 1) * collectorPerHive)
         (stickycollectors f) false.

(** The flags for which the arithmetic of [main] stays within [int]. *)
Definition inRange (f : Flags) : Prop :=
  0 < nhives f /\ nhives f + 7777 < 2 ^ 63 /\ int64 (nswitches f).

(** The flags' defaults, and a run with one switch too many. *)
Definition defaultFlags : Flags :=
  {| nswitches := 4; nhives := 4; stickycollectors := false; centralized := false |}.

Definition unevenFlags : Flags :=
  {| nswitches := 7; nhives := 3; stickycollectors := false; centralized := true |}.

End te.

(** * Properties of the bee execution context *)

Module BeeFacts.
Import bh.
Local Open Scope go_scope.

(** ** Basic facts *)

Lemma emitted_app (h1 h2 : list Event) :
  emitted (h1 ++ h2) = emitted h1 ++ emitted h2.
Proof.
  induction h1 as [|e h1 IH]; simpl; [reflexivity|].
  destruct e; simpl; rewrite IH; reflexivity.
Qed.

Lemma emitted_map_EvEmit (ms : list msg) : emitted (map EvEmit ms) = ms.
Proof. induction ms as [|m ms IH]; simpl; congruence. Qed.

Lemma sent_record_emit (m : msg) (w : World) :
  sent (record (EvEmit m) w) = sent w ++ [m].
Proof. unfold sent, record; simpl. rewrite emitted_app. reflexivity. Qed.

Lemma IsOpen_true (t : Tx) : IsOpen t = true <-> Status t = TxOpen.
Proof. unfold IsOpen. destruct (Status t); split; congruence. Qed.

(** ** C9 *)

(** C9: [CommitTx] on a bee with no open transaction returns nil and
    changes nothing: the bee, its transaction record and the history of
    calls to the hive, the state layer and the replication service are
    the ones it started from. *)
Theorem CommitTx_closed_noop (E : Env) (w : World) :
  IsOpen (tx (bee w)) = false ->
  CommitTx E w = Ret None w.
Proof.
  intros Hclosed. unfold CommitTx, bind, getBee.
  rewrite Hclosed. reflexivity.
Qed.

Lemma CommitTx_closed_noop_witness :
  IsOpen (tx (bee (freshWorld 2 0))) = false /\
  CommitTx envNoQuorum (freshWorld 2 0) = Ret None (freshWorld 2 0).
Proof.
  split; [reflexivity|].
  apply (CommitTx_closed_noop envNoQuorum (freshWorld 2 0)). reflexivity.
Defined.

(** ** C10 *)

(** C10: [SendToCellKey] always ends in [glog.Fatal], in the world it was
    called in: nothing has been forwarded and nothing has been added to
    the transaction's buffer, whether a transaction is open or not. *)
Theorem SendToCellKey_always_fatal (msgData : Data) (to : string)
    (dk : string * string) (w : World) :
  SendToCellKey msgData to dk w = Fatal w /\
  sent (worldOf (SendToCellKey msgData to dk w)) = sent w /\
  Msgs (tx (bee (worldOf (SendToCellKey msgData to dk w)))) = Msgs (tx (bee w)).
Proof. repeat split. Qed.

(** ** C6 *)

Lemma bufferOrEmit_open (m : msg) (w : World) :
  IsOpen (tx (bee w)) = true ->
  bufferOrEmit m w = Ret tt (onBee (withTx (AddMsg m)) w).
Proof.
  intros Hopen. unfold bufferOrEmit, bind, getBee. rewrite Hopen. reflexivity.
Qed.

Lemma bufferOrEmit_closed (m : msg) (w : World) :
  IsOpen (tx (bee w)) = false ->
  bufferOrEmit m w = Ret tt (record (EvEmit m) w).
Proof.
  intros Hclosed. unfold bufferOrEmit, bind, getBee. rewrite Hclosed. reflexivity.
Qed.

Lemma bufferOrEmit_bufferedOrSent (m : msg) (w : World) :
  exists w', bufferOrEmit m w = Ret tt w' /\ bufferedOrSent m w w'.
Proof.
  unfold bufferedOrSent. destruct (IsOpen (tx (bee w))) eqn:Hopen.
  - rewrite (bufferOrEmit_open m w Hopen). eexists; split; [reflexivity|].
    repeat split.
  - rewrite (bufferOrEmit_closed m w Hopen). eexists; split; [reflexivity|].
    repeat split. apply sent_record_emit.
Qed.

Lemma SendToBee_bufferedOrSent (msgData : Data) (to : BeeID) (w : World) :
  exists w', SendToBee msgData to w = Ret tt w' /\
    bufferedOrSent (newMsgFromData msgData (id (bee w)) to) w w'.
Proof.
  unfold SendToBee, bind at 1, getBee. apply bufferOrEmit_bufferedOrSent.
Qed.

(** C6: [Emit] and [SendToBee] build their message from the data, the
    bee's own id and the destination (none for [Emit]).  With a
    transaction open the message is appended to the transaction's
    buffered messages and nothing is forwarded; with none open the
    message is forwarded at once and the transaction record stays as it
    was. *)
Theorem Emit_SendToBee_buffer_or_send (msgData : Data) (to : BeeID) (w : World) :
  (exists w', Emit msgData w = Ret tt w' /\
     bufferedOrSent (newMsgFromData msgData (id (bee w)) nilBeeID) w w') /\
  (exists w', SendToBee msgData to w = Ret tt w' /\
     bufferedOrSent (newMsgFromData msgData (id (bee w)) to) w w').
Proof.
  split.
  - unfold Emit, bind at 1, getBee. apply bufferOrEmit_bufferedOrSent.
  - apply SendToBee_bufferedOrSent.
Qed.

(** ** C7 *)

(** C7: [ReplyTo] on a message flagged NoReply returns the error "Cannot
    reply to this message." and leaves the world as it was (nothing
    forwarded, nothing buffered).  On any other message it returns nil
    after doing exactly what [SendToBee] does with the reply data and the
    message's [From] bee as destination: the reply is addressed to the
    original sender and is forwarded at once, or buffered when a
    transaction is open. *)
Theorem ReplyTo_NoReply_or_send_back (thatMsg : msg) (replyData : Data) (w : World) :
  if NoReply thatMsg
  then ReplyTo thatMsg replyData w
       = Ret (Some "Cannot reply to this message."%string) w
  else
    let reply := newMsgFromData replyData (id (bee w)) (From thatMsg) in
    exists w',
      SendToBee replyData (From thatMsg) w = Ret tt w' /\
      ReplyTo thatMsg replyData w = Ret None w' /\
      MsgTo reply = From thatMsg /\
      MsgData reply = replyData /\
      bufferedOrSent reply w w'.
Proof.
  unfold ReplyTo. destruct (NoReply thatMsg); [reflexivity|].
  destruct (SendToBee_bufferedOrSent replyData (From thatMsg) w)
    as (w' & Hsend & Hpost).
  exists w'. unfold bind at 1. rewrite Hsend. repeat split. exact Hpost.
Qed.

(** ** C4 *)

Lemma stateBeginTx_tx (E : Env) (w : World) :
  exists r w', stateBeginTx E w = Ret r w' /\
    tx (bee w') = tx (bee w) /\ beeColony (bee w') = beeColony (bee w).
Proof.
  unfold stateBeginTx, txState, bind, getBee, ask, emitEvent, modifyBee, ret.
  destruct (state (bee w)); simpl;
    match goal with
    | |- context [stateBeginTxResult E ?x] => destruct (stateBeginTxResult E x)
    end; simpl; eauto.
Qed.

(** C4: [BeginTx] on a bee whose transaction is open returns the error
    "Another tx is open." and leaves the whole world, and so the open
    transaction's Status, Generation, Seq, Msgs and Ops, as it was.  A
    [BeginTx] that returns nil started from a bee with no open
    transaction and leaves Status Open, Generation equal to the
    generation of the bee's colony and Seq incremented (the Go increment
    of the counter: one more, modulo the size of its integer type); the
    buffers are not touched. *)
Theorem BeginTx_conflict_or_open (E : Env) (w : World) :
  (IsOpen (tx (bee w)) = true ->
   BeginTx E w = Ret (Some "Another tx is open."%string) w) /\
  (forall w', BeginTx E w = Ret None w' ->
     IsOpen (tx (bee w)) = false /\
     Status (tx (bee w')) = TxOpen /\
     Generation (tx (bee w')) = Colony.Generation (beeColony (bee w)) /\
     Seq (tx (bee w')) = (Seq (tx (bee w)) + 1) mod seqModulus E /\
     (0 <= Seq (tx (bee w)) < seqModulus E - 1 ->
      Seq (tx (bee w')) = Seq (tx (bee w)) + 1) /\
     Msgs (tx (bee w')) = Msgs (tx (bee w)) /\
     Ops (tx (bee w')) = Ops (tx (bee w))).
Proof.
  split.
  - intros Hopen. unfold BeginTx, bind at 1, getBee. rewrite Hopen. reflexivity.
  - intros w'. unfold BeginTx, bind at 1, getBee.
    destruct (IsOpen (tx (bee w))) eqn:Hopen; [discriminate|].
    unfold bind at 1.
    destruct (stateBeginTx_tx E w) as (r & w1 & Hst & Htx & Hcol).
    rewrite Hst. destruct r as [e|]; [discriminate|].
    unfold bind, modifyTx, modifyBee, getBee, ret; simpl.
    intros Hret. injection Hret as <-. simpl.
    rewrite Htx, Hcol. repeat split.
    intros Hrange. apply Z.mod_small. lia.
Qed.

Lemma BeginTx_conflict_or_open_witness :
  BeginTx envOk (run envOk scenario (freshWorld 2 0))
  = Ret (Some "Another tx is open."%string) (run envOk scenario (freshWorld 2 0)) /\
  Status (tx (bee (worldOf (BeginTx envOk (freshWorld 2 41))))) = TxOpen /\
  Seq (tx (bee (worldOf (BeginTx envOk (freshWorld 2 41))))) = 42.
Proof.
  split.
  - apply (proj1 (BeginTx_conflict_or_open envOk (run envOk scenario (freshWorld 2 0)))).
    reflexivity.
  - destruct (proj2 (BeginTx_conflict_or_open envOk (freshWorld 2 41))
                (worldOf (BeginTx envOk (freshWorld 2 41))) eq_refl)
      as (_ & Hstatus & _ & _ & Hseq & _).
    split; [exact Hstatus|]. apply Hseq. unfold seqModulus; simpl. lia.
Defined.

(** ** The steps of a commit *)

Lemma forMsgs_doEmit (ms : list msg) (w : World) :
  forMsgs ms doEmit w
  = Ret tt {| bee := bee w; history := history w ++ map EvEmit ms |}.
Proof.
  revert w. induction ms as [|m ms IH]; intros w; simpl.
  - unfold ret. rewrite app_nil_r. destruct w; reflexivity.
  - unfold bind, doEmit, emitEvent. rewrite IH. simpl.
    rewrite <- app_assoc. reflexivity.
Qed.

Lemma emitTxMsgs_eq (w : World) :
  emitTxMsgs w
  = Ret tt {| bee := bee w;
              history := history w ++ map EvEmit (Msgs (tx (bee w))) |}.
Proof.
  unfold emitTxMsgs, bind, getBee.
  destruct (Msgs (tx (bee w))) as [|m ms] eqn:Hms.
  - unfold ret. simpl. rewrite app_nil_r. destruct w; reflexivity.
  - apply forMsgs_doEmit.
Qed.

Lemma CommitTx_eq (E : Env) (w : World) :
  CommitTx E w =
  if IsOpen (tx (bee w)) then
    ((modifyTx (setGeneration (Colony.Generation (colonyUnsafe (bee w)))) ;;;
      (if ReplicationFactor (beeApp (bee w)) <? 2
       then doCommitTx E ;;; ret tt
       else ret tt) ;;;
      replicateThenCommit E) w)%go
  else Ret None w.
Proof.
  unfold CommitTx, bind at 1, getBee.
  destruct (IsOpen (tx (bee w))); reflexivity.
Qed.

Ltac state_layer_cases oracle :=
  unfold txState, bind, getBee, ask, emitEvent, modifyBee, ret, theState;
  let Hst := fresh "Hst" in
  match goal with
  | |- context [state (bee ?w)] => destruct (state (bee w)) eqn:Hst; simpl
  end;
  match goal with
  | |- context [oracle ?E ?x] => destruct (oracle E x)
  end; simpl;
  do 2 eexists; (split; [reflexivity|]); unfold record, onBee; simpl;
  rewrite ?Hst; repeat split.

Lemma stateCommitTx_inv (E : Env) (w : World) :
  exists r w', stateCommitTx E w = Ret r w' /\
    history w' = history w ++ [EvStateCommitTx r] /\
    tx (bee w') = tx (bee w) /\
    fixedPart (bee w') = fixedPart (bee w) /\
    theState (bee w') = match r with
                        | None => stateCommit (theState (bee w))
                        | Some _ => theState (bee w)
                        end.
Proof. unfold stateCommitTx. state_layer_cases stateCommitTxResult. Qed.

Lemma stateAbortTx_inv (E : Env) (w : World) :
  exists r w', stateAbortTx E w = Ret r w' /\
    history w' = history w ++ [EvStateAbortTx r] /\
    tx (bee w') = tx (bee w) /\
    fixedPart (bee w') = fixedPart (bee w) /\
    theState (bee w') = match r with
                        | None => stateAbort (theState (bee w))
                        | Some _ => theState (bee w)
                        end.
Proof. unfold stateAbortTx. state_layer_cases stateAbortTxResult. Qed.

Lemma stateBeginTx_inv (E : Env) (w : World) :
  exists r w', stateBeginTx E w = Ret r w' /\
    history w' = history w ++ [EvStateBeginTx r] /\
    tx (bee w') = tx (bee w) /\
    fixedPart (bee w') = fixedPart (bee w) /\
    theState (bee w') = match r with
                        | None => stateBegin (theState (bee w))
                        | Some _ => theState (bee w)
                        end.
Proof. unfold stateBeginTx. state_layer_cases stateBeginTxResult. Qed.

Lemma stateTx_inv (w : World) :
  exists w', stateTx w = Ret (StOps (theState (bee w))) w' /\
    history w' = history w /\
    tx (bee w') = tx (bee w) /\
    fixedPart (bee w') = fixedPart (bee w) /\
    theState (bee w') = theState (bee w).
Proof.
  unfold stateTx, txState, bind, getBee, modifyBee, ret, theState.
  destruct (state (bee w)) eqn:Hst; simpl;
    eexists; (split; [reflexivity|]); simpl; rewrite ?Hst; repeat split.
Qed.

Lemma fixedPart_withTx (f : Tx -> Tx) (b : localBee) :
  fixedPart (withTx f b) = fixedPart b.
Proof. reflexivity. Qed.

Lemma theState_withTx (f : Tx -> Tx) (b : localBee) :
  theState (withTx f b) = theState b.
Proof. reflexivity. Qed.

Lemma tx_withTx (f : Tx -> Tx) (b : localBee) : tx (withTx f b) = f (tx b).
Proof. reflexivity. Qed.

Lemma bee_onBee (f : localBee -> localBee) (w : World) :
  bee (onBee f w) = f (bee w).
Proof. reflexivity. Qed.

Lemma history_onBee (f : localBee -> localBee) (w : World) :
  history (onBee f w) = history w.
Proof. reflexivity. Qed.

Lemma bee_record (e : Event) (w : World) : bee (record e w) = bee w.
Proof. reflexivity. Qed.

Lemma history_record (e : Event) (w : World) :
  history (record e w) = history w ++ [e].
Proof. reflexivity. Qed.

Create Rewrite HintDb bee_simp.
#[local] Hint Rewrite fixedPart_withTx theState_withTx tx_withTx bee_onBee
  history_onBee bee_record history_record : bee_simp.

Lemma doCommitTx_inv (E : Env) (w : World) :
  exists r w', doCommitTx E w = Ret r w' /\
    history w' = history w ++ map EvEmit (Msgs (tx (bee w))) ++ [EvStateCommitTx r] /\
    tx (bee w') = Reset (tx (bee w)) /\
    fixedPart (bee w') = fixedPart (bee w) /\
    theState (bee w') = match r with
                        | None => stateCommit (theState (bee w))
                        | Some _ => theState (bee w)
                        end.
Proof.
  unfold doCommitTx, bind at 1. rewrite emitTxMsgs_eq.
  set (w1 := {| bee := bee w; history := _ |}).
  destruct (stateCommitTx_inv E w1) as (r & w2 & Hc & Hh & Ht & Hf & Hs).
  unfold bind at 1. rewrite Hc.
  exists r, (onBee (withTx Reset) w2). split; [reflexivity|].
  autorewrite with bee_simp.
  rewrite Hh, Ht, Hf, Hs. subst w1; simpl. rewrite <- app_assoc.
  repeat split.
Qed.

Lemma AbortTx_inv (E : Env) (w : World) :
  if IsOpen (tx (bee w)) then
    exists r w', AbortTx E w = Ret r w' /\
      history w' = history w ++ [EvStateAbortTx r] /\
      tx (bee w') = Reset (tx (bee w)) /\
      fixedPart (bee w') = fixedPart (bee w) /\
      theState (bee w') = match r with
                          | None => stateAbort (theState (bee w))
                          | Some _ => theState (bee w)
                          end
  else AbortTx E w = Ret None w.
Proof.
  destruct (IsOpen (tx (bee w))) eqn:Hopen;
    unfold AbortTx; unfold bind at 1; unfold getBee; rewrite Hopen;
    [|reflexivity].
  cbn [negb]. unfold bind at 1, modifyTx, modifyBee.
  set (w1 := onBee _ w).
  destruct (stateAbortTx_inv E w1) as (r & w2 & Ha & Hh & Ht & Hf & Hs).
  exists r, w2. split; [exact Ha|].
  rewrite Hh, Ht, Hf, Hs. subst w1. autorewrite with bee_simp. repeat split.
Qed.

Lemma replicateTx_eq (E : Env) (w : World) :
  replicateTx E w
  = Ret (replicateTxResult E w)
        (record (EvReplicateTx (tx (bee w)) (replicateTxResult E w)) w).
Proof. reflexivity. Qed.

Lemma notifyCommitTx_eq (E : Env) (seq : Z) (w : World) :
  notifyCommitTx E seq w
  = Ret (notifyCommitTxResult E w)
        (record (EvNotifyCommitTx seq (notifyCommitTxResult E w)) w).
Proof. reflexivity. Qed.

Ltac step H := unfold bind at 1; rewrite H.

(** [replicateThenCommit], case by case: the replication call is always
    made, with the record [t] that carries the collected operation log;
    on its failure the transaction is aborted if it is (still) open; on
    its success the buffer is flushed and the state layer commits, after
    which the method either dies or notifies the replicas. *)
Lemma replicateThenCommit_inv (E : Env) (w : World) :
  exists (t : Tx) (r : option Error),
    t = setOps (StOps (theState (bee w))) (tx (bee w)) /\
    match r with
    | Some e =>
        exists w', replicateThenCommit E w = Ret (Some e) w' /\
          fixedPart (bee w') = fixedPart (bee w) /\
          if IsOpen (tx (bee w)) then
            exists ra,
              history w' = history w ++ [EvReplicateTx t r; EvStateAbortTx ra] /\
              tx (bee w') = Reset (tx (bee w)) /\
              theState (bee w') = match ra with
                                  | None => stateAbort (theState (bee w))
                                  | Some _ => theState (bee w)
                                  end
          else
            history w' = history w ++ [EvReplicateTx t r] /\
            tx (bee w') = t /\
            theState (bee w') = theState (bee w)
    | None =>
        exists rc w5,
          history w5 = history w ++ EvReplicateTx t r
                         :: map EvEmit (Msgs (tx (bee w))) ++ [EvStateCommitTx rc] /\
          tx (bee w5) = Reset (tx (bee w)) /\
          fixedPart (bee w5) = fixedPart (bee w) /\
          theState (bee w5) = match rc with
                              | None => stateCommit (theState (bee w))
                              | Some _ => theState (bee w)
                              end /\
          match rc with
          | Some _ => replicateThenCommit E w = Fatal w5
          | None =>
              exists rn w', replicateThenCommit E w = Ret None w' /\
                bee w' = bee w5 /\
                history w' = history w5 ++ [EvNotifyCommitTx (Seq (tx (bee w))) rn]
          end
    end.
Proof.
  destruct (stateTx_inv w) as (w1 & Hs1 & Hh1 & Ht1 & Hf1 & Hst1).
  set (w2 := onBee (withTx (setOps (StOps (theState (bee w))))) w1).
  exists (tx (bee w2)), (replicateTxResult E w2).
  split; [subst w2; autorewrite with bee_simp; rewrite Ht1; reflexivity|].
  set (w3 := record (EvReplicateTx (tx (bee w2)) (replicateTxResult E w2)) w2).
  assert (Hh3 : history w3
                = history w ++ [EvReplicateTx (tx (bee w2)) (replicateTxResult E w2)]).
  { subst w3 w2. autorewrite with bee_simp. rewrite Hh1. reflexivity. }
  assert (Ht3 : tx (bee w3) = setOps (StOps (theState (bee w))) (tx (bee w))).
  { subst w3 w2. autorewrite with bee_simp. rewrite Ht1. reflexivity. }
  assert (Hf3 : fixedPart (bee w3) = fixedPart (bee w)).
  { subst w3 w2. autorewrite with bee_simp. exact Hf1. }
  assert (Hst3 : theState (bee w3) = theState (bee w)).
  { subst w3 w2. autorewrite with bee_simp. exact Hst1. }
  assert (Hrun : forall k : option Error -> M (option Error),
             (ops <- stateTx ;; modifyTx (setOps ops) ;;;
              err <- replicateTx E ;; k err) w
             = k (replicateTxResult E w2) w3).
  { intros k. step Hs1. unfold bind at 1, modifyTx, modifyBee.
    fold w2. step (replicateTx_eq E w2). reflexivity. }
  unfold replicateThenCommit. rewrite Hrun. clear Hrun.
  destruct (replicateTxResult E w2) as [e|] eqn:Hr.
  - pose proof (AbortTx_inv E w3) as Ha. rewrite Ht3 in Ha.
    change (IsOpen (setOps (StOps (theState (bee w))) (tx (bee w))))
      with (IsOpen (tx (bee w))) in Ha.
    destruct (IsOpen (tx (bee w))).
    + destruct Ha as (ra & w4 & Ha & Hh4 & Ht4 & Hf4 & Hst4).
      exists w4. step Ha. split; [reflexivity|]. split; [congruence|].
      exists ra. rewrite Hh4, Hh3, Ht4, Hst4, Hst3, <- app_assoc.
      repeat split.
    + exists w3. step Ha. split; [reflexivity|]. repeat split; assumption.
  - destruct (doCommitTx_inv E w3) as (rc & w5 & Hc & Hh5 & Ht5 & Hf5 & Hst5).
    rewrite Ht3 in Hh5, Ht5. rewrite Hh3, <- app_assoc in Hh5.
    rewrite Hst3 in Hst5. rewrite Hf3 in Hf5.
    exists rc, w5. do 4 (split; [assumption|]).
    destruct rc as [e|]; step Hc; [reflexivity|].
    unfold bind at 1, getBee. step (notifyCommitTx_eq E (Seq (tx (bee w5))) w5).
    do 2 eexists. split; [reflexivity|]. autorewrite with bee_simp.
    rewrite Ht5. repeat split.
Qed.

(** The world in which [CommitTx] goes on after refreshing Generation. *)
Lemma CommitTx_replicated_path (E : Env) (w : World) :
  IsOpen (tx (bee w)) = true ->
  (ReplicationFactor (beeApp (bee w)) <? 2) = false ->
  CommitTx E w
  = replicateThenCommit E
      (onBee (withTx (setGeneration (Colony.Generation (beeColony (bee w))))) w).
Proof.
  intros Hopen Hrf. rewrite CommitTx_eq, Hopen.
  unfold bind at 1, modifyTx, modifyBee. rewrite Hrf. reflexivity.
Qed.

Lemma CommitTx_fast_path (E : Env) (w : World) :
  IsOpen (tx (bee w)) = true ->
  (ReplicationFactor (beeApp (bee w)) <? 2) = true ->
  exists r1 w2,
    CommitTx E w = replicateThenCommit E w2 /\
    history w2 = history w ++ map EvEmit (Msgs (tx (bee w))) ++ [EvStateCommitTx r1] /\
    tx (bee w2)
    = Reset (setGeneration (Colony.Generation (beeColony (bee w))) (tx (bee w))) /\
    fixedPart (bee w2) = fixedPart (bee w) /\
    theState (bee w2) = match r1 with
                        | None => stateCommit (theState (bee w))
                        | Some _ => theState (bee w)
                        end.
Proof.
  intros Hopen Hrf. rewrite CommitTx_eq, Hopen.
  unfold bind at 1, modifyTx, modifyBee. rewrite Hrf.
  set (w1 := onBee _ w).
  destruct (doCommitTx_inv E w1) as (r1 & w2 & Hc & Hh & Ht & Hf & Hs).
  exists r1, w2. unfold bind at 1. step Hc.
  split; [reflexivity|]. subst w1. autorewrite with bee_simp in *.
  repeat split; assumption.
Qed.

(** ** C3 *)

(** C3: when [CommitTx] on an open transaction returns nil, the messages
    forwarded by the call are exactly the transaction's buffered
    messages, each once and in buffering order; in the history of calls
    they come in one block, which nothing but the replication call
    precedes (no commit of the state layer, no other message), and the
    successful commit of the state layer, which applies the operations,
    comes after the block. *)
Theorem CommitTx_success_flushes_in_order (E : Env) (w w' : World) :
  IsOpen (tx (bee w)) = true ->
  CommitTx E w = Ret None w' ->
  sent w' = sent w ++ Msgs (tx (bee w)) /\
  exists before after : list Event,
    history w' = history w ++ before ++ map EvEmit (Msgs (tx (bee w))) ++ after /\
    forallb isReplicateTx before = true /\
    emitted after = [] /\
    In (EvStateCommitTx None) after.
Proof.
  intros Hopen Hret.
  assert (Hhist : exists before after : list Event,
    history w' = history w ++ before ++ map EvEmit (Msgs (tx (bee w))) ++ after /\
    forallb isReplicateTx before = true /\
    emitted after = [] /\
    In (EvStateCommitTx None) after).
  { destruct (ReplicationFactor (beeApp (bee w)) <? 2) eqn:Hrf.
    - destruct (CommitTx_fast_path E w Hopen Hrf)
        as (r1 & w2 & Heq & Hh2 & Ht2 & _).
      rewrite Heq in Hret.
      destruct (replicateThenCommit_inv E w2) as (t & r & _ & Hcase).
      destruct r as [e|].
      { destruct Hcase as (w'' & Hr & _). congruence. }
      destruct Hcase as (rc & w5 & Hh5 & _ & _ & _ & Hrc).
      destruct rc as [e|]; [congruence|].
      destruct Hrc as (rn & w'' & Hr & _ & Hh).
      assert (w'' = w') by congruence. subst w''.
      rewrite Ht2 in Hh5. simpl in Hh5. rewrite Hh2 in Hh5.
      exists [], ([EvStateCommitTx r1; EvReplicateTx t None; EvStateCommitTx None]
                  ++ [EvNotifyCommitTx (Seq (tx (bee w2))) rn]).
      rewrite Hh, Hh5. simpl. rewrite <- !app_assoc. simpl.
      split; [reflexivity|]. split; [reflexivity|]. split; [reflexivity|].
      right; right; left; reflexivity.
    - rewrite (CommitTx_replicated_path E w Hopen Hrf) in Hret.
      set (w1 := onBee _ w) in Hret.
      destruct (replicateThenCommit_inv E w1) as (t & r & _ & Hcase).
      destruct r as [e|].
      { destruct Hcase as (w'' & Hr & _). congruence. }
      destruct Hcase as (rc & w5 & Hh5 & _ & _ & _ & Hrc).
      destruct rc as [e|]; [congruence|].
      destruct Hrc as (rn & w'' & Hr & _ & Hh).
      assert (w'' = w') by congruence. subst w''.
      exists [EvReplicateTx t None],
             [EvStateCommitTx None; EvNotifyCommitTx (Seq (tx (bee w1))) rn].
      rewrite Hh, Hh5. subst w1. autorewrite with bee_simp. simpl.
      repeat (rewrite <- app_assoc; simpl).
      split; [reflexivity|]. split; [reflexivity|]. split; [reflexivity|].
      left; reflexivity. }
  split; [|exact Hhist].
  destruct Hhist as (before & after & Hh & Hb & Ha & _).
  unfold sent. rewrite Hh, !emitted_app, emitted_map_EvEmit, Ha, app_nil_r.
  assert (Hnone : emitted before = []).
  { clear Hh. induction before as [|e before IH]; [reflexivity|].
    simpl in Hb. apply andb_prop in Hb as [He Hb].
    destruct e; try discriminate. simpl. auto. }
  rewrite Hnone. reflexivity.
Qed.

Lemma CommitTx_success_flushes_in_order_witness :
  IsOpen (tx (bee (beforeCommit 2))) = true /\
  sent (worldOf (CommitTx envOk (beforeCommit 2))) = [msgA; msgB].
Proof.
  split; [reflexivity|].
  apply (proj1 (CommitTx_success_flushes_in_order envOk (beforeCommit 2)
                  (worldOf (CommitTx envOk (beforeCommit 2))) eq_refl eq_refl)).
Defined.

(** ** C5 *)

Lemma replicateThenCommit_Seq (E : Env) (w : World) :
  seqOf (worldOf (replicateThenCommit E w)) = seqOf w.
Proof.
  unfold seqOf.
  destruct (replicateThenCommit_inv E w) as (t & r & Ht & Hcase).
  destruct r as [e|].
  - destruct Hcase as (w' & Hr & _ & Hopen). rewrite Hr. simpl.
    destruct (IsOpen (tx (bee w))).
    + destruct Hopen as (ra & _ & Htx & _). rewrite Htx. reflexivity.
    + destruct Hopen as (_ & Htx & _). rewrite Htx, Ht. reflexivity.
  - destruct Hcase as (rc & w5 & _ & Htx & _ & _ & Hrc).
    destruct rc as [e|].
    + rewrite Hrc. simpl. rewrite Htx. reflexivity.
    + destruct Hrc as (rn & w' & Hr & Hbee & _). rewrite Hr. simpl.
      rewrite Hbee, Htx. reflexivity.
Qed.

Lemma CommitTx_Seq (E : Env) (w : World) :
  seqOf (worldOf (CommitTx E w)) = seqOf w.
Proof.
  destruct (IsOpen (tx (bee w))) eqn:Hopen.
  - destruct (ReplicationFactor (beeApp (bee w)) <? 2) eqn:Hrf.
    + destruct (CommitTx_fast_path E w Hopen Hrf) as (r1 & w2 & Heq & _ & Htx & _).
      rewrite Heq, replicateThenCommit_Seq. unfold seqOf. rewrite Htx. reflexivity.
    + rewrite (CommitTx_replicated_path E w Hopen Hrf), replicateThenCommit_Seq.
      reflexivity.
  - rewrite CommitTx_eq, Hopen. reflexivity.
Qed.

Lemma AbortTx_Seq (E : Env) (w : World) :
  seqOf (worldOf (AbortTx E w)) = seqOf w.
Proof.
  pose proof (AbortTx_inv E w) as Ha. unfold seqOf.
  destruct (IsOpen (tx (bee w))).
  - destruct Ha as (r & w' & Hr & _ & Htx & _). rewrite Hr. simpl.
    rewrite Htx. reflexivity.
  - rewrite Ha. reflexivity.
Qed.

Lemma bufferOrEmit_Seq (m : msg) (w : World) :
  seqOf (worldOf (bufferOrEmit m w)) = seqOf w.
Proof.
  unfold bufferOrEmit, bind, getBee.
  destruct (IsOpen (tx (bee w))); reflexivity.
Qed.

Lemma SendToBee_Seq (d : Data) (to : BeeID) (w : World) :
  seqOf (worldOf (SendToBee d to w)) = seqOf w.
Proof. unfold SendToBee, bind at 1, getBee. apply bufferOrEmit_Seq. Qed.

Lemma statePut_Seq (o : StateOp) (w : World) :
  seqOf (worldOf (statePut o w)) = seqOf w.
Proof.
  unfold statePut, txState, bind, getBee, modifyBee, ret.
  destruct (state (bee w)); reflexivity.
Qed.

Lemma worldOf_then_ret {A B} (m : M A) (b : B) (w : World) :
  worldOf ((m ;;; ret b) w) = worldOf (m w).
Proof. unfold bind, ret. destruct (m w); reflexivity. Qed.

Lemma exec_Seq (E : Env) (c : Call) (w : World) :
  isBeginTx c = false ->
  seqOf (worldOf (exec E c w)) = seqOf w.
Proof.
  destruct c; simpl; intros Hc; try discriminate;
    rewrite ?worldOf_then_ret.
  - unfold Emit, bind at 1, getBee. apply bufferOrEmit_Seq.
  - reflexivity.
  - apply SendToBee_Seq.
  - unfold ReplyTo. destruct (NoReply thatMsg); [reflexivity|].
    rewrite worldOf_then_ret. apply SendToBee_Seq.
  - apply statePut_Seq.
  - apply CommitTx_Seq.
  - apply AbortTx_Seq.
Qed.

Lemma BeginTx_Seq (E : Env) (w : World) :
  exists r w', BeginTx E w = Ret r w' /\
    seqOf w' = match r with
               | None => (seqOf w + 1) mod seqModulus E
               | Some _ => seqOf w
               end.
Proof.
  unfold BeginTx, bind at 1, getBee, seqOf.
  destruct (IsOpen (tx (bee w))); [eauto|].
  destruct (stateBeginTx_inv E w) as (r & w1 & Hb & _ & Htx & _).
  step Hb. destruct r as [e|].
  - do 2 eexists. split; [reflexivity|]. rewrite Htx. reflexivity.
  - do 2 eexists. split; [reflexivity|]. simpl. rewrite Htx. reflexivity.
Qed.

Lemma begun_sorted (E : Env) (cs : list Call) :
  forall w : World,
    0 <= seqOf w ->
    seqOf w + Z.of_nat (beginCalls cs) < seqModulus E ->
    StronglySorted Z.lt (seqOf w :: begun E cs w).
Proof.
  induction cs as [|c cs IH]; intros w Hlo Hhi.
  - simpl. repeat constructor.
  - cbn [begun beginCalls] in *.
    destruct (isBeginTx c) eqn:Hc.
    + destruct c; try discriminate. cbn [exec].
      destruct (BeginTx_Seq E w) as (r & w' & Hb & Hseq). rewrite Hb.
      destruct r as [e|].
      * rewrite <- Hseq. apply IH; rewrite Hseq; lia.
      * rewrite Z.mod_small in Hseq by lia.
        assert (Hs : StronglySorted Z.lt (seqOf w' :: begun E cs w'))
          by (apply IH; rewrite Hseq; lia).
        fold (seqOf w'). constructor; [exact Hs|].
        apply StronglySorted_inv in Hs as [_ Hall].
        constructor; [lia|].
        eapply Forall_impl; [exact Hall|]. simpl. intros; lia.
    + pose proof (exec_Seq E c w Hc) as Hseq.
      destruct (exec E c w) as [r w'|w'] eqn:Hex; simpl in Hseq.
      * assert (Hs : StronglySorted Z.lt (seqOf w' :: begun E cs w'))
          by (apply IH; rewrite Hseq; lia).
        rewrite Hseq in Hs.
        destruct c; try discriminate; destruct r; exact Hs.
      * repeat constructor.
Qed.

(** C5 (amended): no call other than [BeginTx] changes Seq, whatever its
    outcome; and over any run of calls that starts with Seq far enough
    below the limit of the counter for the run's [BeginTx] calls, the
    sequence numbers of the successful [BeginTx] calls, taken in order
    after the Seq the run started with, are strictly increasing: each is
    greater than all earlier ones. *)
Theorem Seq_increases_below_counter_limit (E : Env) (cs : list Call) (w : World) :
  (forall c : Call, isBeginTx c = false ->
     Seq (tx (bee (worldOf (exec E c w)))) = Seq (tx (bee w))) /\
  (0 <= Seq (tx (bee w)) ->
   Seq (tx (bee w)) + Z.of_nat (beginCalls cs) < seqModulus E ->
   StronglySorted Z.lt (Seq (tx (bee w)) :: begun E cs w)).
Proof.
  split.
  - intros c Hc. apply (exec_Seq E c w Hc).
  - apply (begun_sorted E cs w).
Qed.

Lemma Seq_increases_below_counter_limit_witness :
  StronglySorted Z.lt
    (Seq (tx (bee (freshWorld 2 0))) :: begun envOk threeTransactions (freshWorld 2 0)) /\
  begun envOk threeTransactions (freshWorld 2 0) = [1; 2; 3].
Proof.
  split; [|reflexivity].
  apply (proj2 (Seq_increases_below_counter_limit envOk threeTransactions
                  (freshWorld 2 0))).
  - simpl. lia.
  - reflexivity.
Defined.

(** C5 as stated fails at the limit of the counter: on a bee whose Seq is
    two short of it, the second of two successive transactions gets Seq 0
    after the first got the largest value, so the sequence numbers of
    the successful [BeginTx] calls are not increasing. *)
Lemma Seq_wraps_at_counter_limit :
  begun envOk twoTransactions nearLimit = [2 ^ 64 - 1; 0] /\
  ~ StronglySorted Z.lt
      (Seq (tx (bee nearLimit)) :: begun envOk twoTransactions nearLimit).
Proof.
  assert (Hb : begun envOk twoTransactions nearLimit = [2 ^ 64 - 1; 0])
    by (vm_compute; reflexivity).
  split; [exact Hb|].
  rewrite Hb. intros Hs.
  apply StronglySorted_inv in Hs as [Hs _].
  apply StronglySorted_inv in Hs as [_ Hall].
  apply Forall_inv in Hall. revert Hall. vm_compute. discriminate.
Qed.

(** ** C1 and C2 *)

(** With a replication factor of 2 or more, a [CommitTx] that returns an
    error returns the error of the replication call, made with the open
    transaction; the transaction record is reset (closed, no buffered
    messages, no operations), the state layer was asked to abort and has
    not committed, no message was forwarded and the committed contents of
    the dictionaries are those from before the call. *)
Lemma CommitTx_replication_failure_rolls_back (E : Env) (w w' : World) (e : Error) :
  2 <= ReplicationFactor (beeApp (bee w)) ->
  IsOpen (tx (bee w)) = true ->
  CommitTx E w = Ret (Some e) w' ->
  (exists t ra,
     history w' = history w ++ [EvReplicateTx t (Some e); EvStateAbortTx ra] /\
     Status t = TxOpen /\ Msgs t = Msgs (tx (bee w))) /\
  sent w' = sent w /\
  committed w' = committed w /\
  Status (tx (bee w')) = TxClosed /\
  Msgs (tx (bee w')) = [] /\
  Ops (tx (bee w')) = [].
Proof.
  intros Hrf Hopen Hret.
  assert (Hlt : (ReplicationFactor (beeApp (bee w)) <? 2) = false)
    by (apply Z.ltb_ge; exact Hrf).
  rewrite (CommitTx_replicated_path E w Hopen Hlt) in Hret.
  set (w1 := onBee _ w) in Hret.
  destruct (replicateThenCommit_inv E w1) as (t & r & Ht & Hcase).
  destruct r as [e'|].
  - destruct Hcase as (w'' & Hr & _ & Hab).
    assert (e' = e /\ w'' = w') as [-> ->] by (split; congruence).
    change (IsOpen (tx (bee w1))) with (IsOpen (tx (bee w))) in Hab.
    rewrite Hopen in Hab. destruct Hab as (ra & Hh & Htx & Hst).
    assert (Hsent : sent w' = sent w).
    { unfold sent. rewrite Hh, emitted_app. simpl. apply app_nil_r. }
    assert (Hcom : committed w' = committed w).
    { unfold committed. rewrite Hst. destruct ra; reflexivity. }
    split; [|rewrite Htx; repeat split; assumption].
    exists t, ra. split; [exact Hh|]. rewrite Ht. simpl.
    split; [apply IsOpen_true; exact Hopen|reflexivity].
  - destruct Hcase as (rc & w5 & _ & _ & _ & _ & Hrc).
    destruct rc as [e'|]; [congruence|].
    destruct Hrc as (rn & w'' & Hr & _). congruence.
Qed.

(** With a replication factor below 2, [CommitTx] on an open transaction
    flushes the buffer and commits the state layer, and then goes on to
    call the replication service all the same. *)
Lemma CommitTx_fast_path_replicates (E : Env) (w : World) :
  ReplicationFactor (beeApp (bee w)) < 2 ->
  IsOpen (tx (bee w)) = true ->
  exists r1 t r rest,
    history (worldOf (CommitTx E w))
    = history w ++ map EvEmit (Msgs (tx (bee w)))
        ++ EvStateCommitTx r1 :: EvReplicateTx t r :: rest.
Proof.
  intros Hrf Hopen.
  assert (Hlt : (ReplicationFactor (beeApp (bee w)) <? 2) = true)
    by (apply Z.ltb_lt; exact Hrf).
  destruct (CommitTx_fast_path E w Hopen Hlt) as (r1 & w2 & Heq & Hh2 & Ht2 & _).
  rewrite Heq.
  destruct (replicateThenCommit_inv E w2) as (t & r & _ & Hcase).
  exists r1, t, r.
  assert (Hclosed : IsOpen (tx (bee w2)) = false) by (rewrite Ht2; reflexivity).
  destruct r as [e|].
  - destruct Hcase as (w' & Hr & _ & Hab). rewrite Hclosed in Hab.
    destruct Hab as (Hh & _). exists []. rewrite Hr. simpl.
    rewrite Hh, Hh2. repeat (rewrite <- app_assoc; simpl). reflexivity.
  - destruct Hcase as (rc & w5 & Hh5 & _ & _ & _ & Hrc).
    rewrite Ht2 in Hh5. simpl in Hh5.
    destruct rc as [e|].
    + exists [EvStateCommitTx (Some e)]. rewrite Hrc. simpl.
      rewrite Hh5, Hh2. repeat (rewrite <- app_assoc; simpl). reflexivity.
    + destruct Hrc as (rn & w' & Hr & _ & Hh).
      exists [EvStateCommitTx None; EvNotifyCommitTx (Seq (tx (bee w2))) rn].
      rewrite Hr. simpl.
      rewrite Hh, Hh5, Hh2. repeat (rewrite <- app_assoc; simpl). reflexivity.
Qed.

Example CommitTx_replication_failure_rolls_back_example :
  CommitTx envNoQuorum (beforeCommit 2)
  = Ret (Some "quorum not reached"%string)
        (worldOf (CommitTx envNoQuorum (beforeCommit 2))) /\
  sent (worldOf (CommitTx envNoQuorum (beforeCommit 2))) = [] /\
  committed (worldOf (CommitTx envNoQuorum (beforeCommit 2)))
    !! ("d"%string, "x"%string) = None.
Proof.
  split; [vm_compute; reflexivity|].
  destruct (CommitTx_replication_failure_rolls_back envNoQuorum (beforeCommit 2)
              (worldOf (CommitTx envNoQuorum (beforeCommit 2)))
              "quorum not reached"%string)
    as (_ & Hsent & Hcom & _);
    [vm_compute; discriminate|vm_compute; reflexivity|vm_compute; reflexivity|].
  rewrite Hsent, Hcom. split; vm_compute; reflexivity.
Qed.

(** C1: on the bee of the scenario with replication factor 1, with a
    replication service that fails, [CommitTx] returns the replication
    error although both buffered messages have been forwarded and the
    pending write of x has been committed. *)
Theorem CommitTx_fast_path_error_after_effects :
  exists w',
    CommitTx envNoQuorum (beforeCommit 1)
    = Ret (Some "quorum not reached"%string) w' /\
    sent (beforeCommit 1) = [] /\
    sent w' = [msgA; msgB] /\
    committed (beforeCommit 1) !! ("d"%string, "x"%string) = None /\
    committed w' !! ("d"%string, "x"%string) = Some "1"%string.
Proof.
  eexists. split; [vm_compute; reflexivity|].
  repeat split; vm_compute; reflexivity.
Qed.

(** C2: on the bee of the scenario with replication factor 1,
    [CommitTx] forwards A and B and commits the state layer, then calls
    the replication service with the already reset transaction record,
    and commits the state layer a second time. *)
Theorem CommitTx_fast_path_calls_replication :
  CommitTx envOk (beforeCommit 1)
  = Ret None (worldOf (CommitTx envOk (beforeCommit 1))) /\
  history (worldOf (CommitTx envOk (beforeCommit 1)))
  = [EvStateBeginTx None; EvEmit msgA; EvEmit msgB; EvStateCommitTx None;
     EvReplicateTx {| Status := TxClosed; Generation := 3; Seq := 1;
                      Msgs := []; Ops := [] |} None;
     EvStateCommitTx None; EvNotifyCommitTx 1 None].
Proof. split; vm_compute; reflexivity. Qed.

(** ** Steps outside a commit *)

Lemma statePut_inv (o : StateOp) (w : World) :
  exists w', statePut o w = Ret tt w' /\
    history w' = history w /\
    tx (bee w') = tx (bee w) /\
    fixedPart (bee w') = fixedPart (bee w) /\
    theState (bee w') = stateWrite o (theState (bee w)).
Proof.
  unfold statePut, txState, bind, getBee, modifyBee, ret, theState.
  destruct (state (bee w)) eqn:Hst; simpl;
    eexists; (split; [reflexivity|]); simpl; rewrite ?Hst; repeat split.
Qed.

Lemma bufferOrEmit_inv (m : msg) (w : World) :
  exists w', bufferOrEmit m w = Ret tt w' /\
    fixedPart (bee w') = fixedPart (bee w) /\
    theState (bee w') = theState (bee w) /\
    if IsOpen (tx (bee w))
    then tx (bee w') = AddMsg m (tx (bee w)) /\ history w' = history w
    else tx (bee w') = tx (bee w) /\ history w' = history w ++ [EvEmit m].
Proof.
  destruct (IsOpen (tx (bee w))) eqn:Hopen.
  - rewrite (bufferOrEmit_open m w Hopen). eexists. split; [reflexivity|].
    repeat split.
  - rewrite (bufferOrEmit_closed m w Hopen). eexists. split; [reflexivity|].
    repeat split.
Qed.

(** What one buffer call does, whatever it is. *)
Lemma exec_buffer_call (E : Env) (c : Call) (w : World) :
  isBufferCall c = true ->
  exists r w', exec E c w = Ret r w' /\
    fixedPart (bee w') = fixedPart (bee w) /\
    theState (bee w') = fold_left (fun s o => stateWrite o s) (bodyOps [c]) (theState (bee w)) /\
    if IsOpen (tx (bee w))
    then tx (bee w')
         = fold_left (fun t m => AddMsg m t) (bodyMsgs (beeID (bee w)) [c]) (tx (bee w)) /\
         history w' = history w
    else tx (bee w') = tx (bee w) /\
         history w' = history w ++ map EvEmit (bodyMsgs (beeID (bee w)) [c]).
Proof.
  destruct c; try discriminate; intros _; cbn [exec bodyOps bodyMsgs fold_left].
  - unfold Emit, bind at 1, bind at 1, getBee, id.
    destruct (bufferOrEmit_inv (newMsgFromData msgData (beeID (bee w)) nilBeeID) w)
      as (w' & Hb & Hf & Hs & Ht).
    rewrite Hb. do 2 eexists. split; [reflexivity|]. auto.
  - unfold SendToBee, bind at 1, bind at 1, getBee, id.
    destruct (bufferOrEmit_inv (newMsgFromData msgData (beeID (bee w)) to) w)
      as (w' & Hb & Hf & Hs & Ht).
    rewrite Hb. do 2 eexists. split; [reflexivity|]. auto.
  - unfold ReplyTo. destruct (NoReply thatMsg).
    + do 2 eexists. split; [reflexivity|]. cbn [fold_left map].
      rewrite app_nil_r. destruct (IsOpen (tx (bee w))); auto.
    + unfold SendToBee, bind at 1, bind at 1, getBee, id.
      destruct (bufferOrEmit_inv
                  (newMsgFromData replyData (beeID (bee w)) (From thatMsg)) w)
        as (w' & Hb & Hf & Hs & Ht).
      rewrite Hb. do 2 eexists. split; [reflexivity|]. auto.
  - destruct (statePut_inv o w) as (w' & Hp & Hh & Ht & Hf & Hs).
    unfold bind at 1. rewrite Hp. do 2 eexists. split; [reflexivity|].
    cbn [fold_left map]. rewrite Hh, Ht, app_nil_r.
    destruct (IsOpen (tx (bee w))); auto.
Qed.

Lemma IsOpen_AddMsgs (ms : list msg) (t : Tx) :
  IsOpen (fold_left (fun t m => AddMsg m t) ms t) = IsOpen t.
Proof. revert t. induction ms as [|m ms IH]; intros t; simpl; [|rewrite IH]; reflexivity. Qed.

(** A run of buffer calls. *)
Lemma run_buffer_calls (E : Env) (cs : list Call) :
  forall w : World,
    forallb isBufferCall cs = true ->
    fixedPart (bee (run E cs w)) = fixedPart (bee w) /\
    theState (bee (run E cs w))
    = fold_left (fun s o => stateWrite o s) (bodyOps cs) (theState (bee w)) /\
    if IsOpen (tx (bee w))
    then tx (bee (run E cs w))
         = fold_left (fun t m => AddMsg m t) (bodyMsgs (beeID (bee w)) cs) (tx (bee w)) /\
         history (run E cs w) = history w
    else tx (bee (run E cs w)) = tx (bee w) /\
         history (run E cs w)
         = history w ++ map EvEmit (bodyMsgs (beeID (bee w)) cs).
Proof.
  induction cs as [|c cs IH]; intros w Hcs.
  - simpl. rewrite app_nil_r. destruct (IsOpen (tx (bee w))); auto.
  - cbn [forallb] in Hcs. apply andb_prop in Hcs as [Hc Hcs].
    destruct (exec_buffer_call E c w Hc) as (r & w1 & Hex & Hf1 & Hs1 & Ht1).
    cbn [run]. rewrite Hex.
    destruct (IH w1 Hcs) as (Hf & Hs & Ht).
    assert (Hid : beeID (bee w1) = beeID (bee w))
      by (unfold fixedPart in Hf1; congruence).
    assert (Hmsgs : bodyMsgs (beeID (bee w)) (c :: cs)
                    = bodyMsgs (beeID (bee w)) [c] ++ bodyMsgs (beeID (bee w)) cs).
    { destruct c; try reflexivity. simpl. destruct (NoReply thatMsg); reflexivity. }
    assert (Hops : bodyOps (c :: cs) = bodyOps [c] ++ bodyOps cs)
      by (destruct c; reflexivity).
    rewrite Hmsgs, Hops, !fold_left_app, map_app, Hid in *.
    split; [congruence|]. split; [congruence|].
    destruct (IsOpen (tx (bee w))) eqn:Hopen.
    + destruct Ht1 as (Ht1 & Hh1).
      assert (Ho1 : IsOpen (tx (bee w1)) = true)
        by (rewrite Ht1, IsOpen_AddMsgs; exact Hopen).
      rewrite Ho1 in Ht. destruct Ht as (Ht & Hh).
      split; congruence.
    + destruct Ht1 as (Ht1 & Hh1).
      assert (Ho1 : IsOpen (tx (bee w1)) = false) by (rewrite Ht1; exact Hopen).
      rewrite Ho1 in Ht. destruct Ht as (Ht & Hh).
      split; [congruence|]. rewrite Hh, Hh1, <- app_assoc. reflexivity.
Qed.

Lemma stateWrite_open_fold (ops : list StateOp) (s : TxState) :
  StOpen s = true ->
  fold_left (fun s o => stateWrite o s) ops s
  = {| Dicts := Dicts s; StOpen := true; StOps := StOps s ++ ops |}.
Proof.
  revert s. induction ops as [|o ops IH]; intros s Hopen; simpl.
  - rewrite app_nil_r. destruct s; simpl in *; subst; reflexivity.
  - rewrite IH by (unfold stateWrite; rewrite Hopen; reflexivity).
    unfold stateWrite. rewrite Hopen. simpl. rewrite <- app_assoc. reflexivity.
Qed.

Lemma AddMsg_fold (ms : list msg) (t : Tx) :
  fold_left (fun t m => AddMsg m t) ms t
  = {| Status := Status t; Generation := Generation t; Seq := Seq t;
       Msgs := Msgs t ++ ms; Ops := Ops t |}.
Proof.
  revert t. induction ms as [|m ms IH]; intros t; simpl.
  - rewrite app_nil_r. destruct t; reflexivity.
  - rewrite IH. simpl. rewrite <- app_assoc. reflexivity.
Qed.

Lemma BeginTx_inv (E : Env) (w : World) :
  exists r w', BeginTx E w = Ret r w' /\
    fixedPart (bee w') = fixedPart (bee w) /\
    match r with
    | None =>
        IsOpen (tx (bee w)) = false /\
        history w' = history w ++ [EvStateBeginTx None] /\
        tx (bee w')
        = setSeq ((Seq (tx (bee w)) + 1) mod seqModulus E)
            (setGeneration (Colony.Generation (beeColony (bee w)))
               (setStatus TxOpen (tx (bee w)))) /\
        theState (bee w') = stateBegin (theState (bee w))
    | Some e =>
        tx (bee w') = tx (bee w) /\
        theState (bee w') = theState (bee w) /\
        if IsOpen (tx (bee w))
        then history w' = history w
        else history w' = history w ++ [EvStateBeginTx (Some e)]
    end.
Proof.
  unfold BeginTx, bind at 1, getBee.
  destruct (IsOpen (tx (bee w))) eqn:Hopen.
  - do 2 eexists. split; [reflexivity|]. repeat split.
  - destruct (stateBeginTx_inv E w) as (r & w1 & Hb & Hh & Ht & Hf & Hs).
    step Hb. destruct r as [e|].
    + do 2 eexists. split; [reflexivity|]. auto.
    + do 2 eexists. split; [reflexivity|].
      unfold bind, modifyTx, modifyBee, getBee, ret. cbv beta iota.
      autorewrite with bee_simp.
      assert (Hcol : beeColony (bee w1) = beeColony (bee w))
        by (unfold fixedPart in Hf; congruence).
      change (beeColony (withTx (setStatus TxOpen) (bee w1)))
        with (beeColony (bee w1)).
      rewrite Hcol, Ht, Hs, Hh. repeat split; auto.
Qed.

Lemma CommitTx_open_cases (E : Env) (w : World) :
  IsOpen (tx (bee w)) = true ->
  exists (w0 : World) (pre : list Event),
    CommitTx E w = replicateThenCommit E w0 /\
    history w0 = history w ++ pre /\
    fixedPart (bee w0) = fixedPart (bee w) /\
    if ReplicationFactor (beeApp (bee w)) <? 2
    then exists r1,
           pre = map EvEmit (Msgs (tx (bee w))) ++ [EvStateCommitTx r1] /\
           tx (bee w0)
           = Reset (setGeneration (Colony.Generation (beeColony (bee w))) (tx (bee w))) /\
           theState (bee w0) = match r1 with
                               | None => stateCommit (theState (bee w))
                               | Some _ => theState (bee w)
                               end
    else pre = [] /\
         tx (bee w0)
         = setGeneration (Colony.Generation (beeColony (bee w))) (tx (bee w)) /\
         theState (bee w0) = theState (bee w).
Proof.
  intros Hopen.
  destruct (ReplicationFactor (beeApp (bee w)) <? 2) eqn:Hrf.
  - destruct (CommitTx_fast_path E w Hopen Hrf)
      as (r1 & w2 & Heq & Hh & Ht & Hf & Hs).
    exists w2. eexists. split; [exact Heq|]. split; [exact Hh|].
    split; [exact Hf|]. exists r1. auto.
  - rewrite (CommitTx_replicated_path E w Hopen Hrf).
    eexists. exists []. split; [reflexivity|].
    autorewrite with bee_simp. rewrite app_nil_r. repeat split.
Qed.

(** What a successful commit leaves behind. *)
Lemma CommitTx_success_inv (E : Env) (w w' : World) :
  IsOpen (tx (bee w)) = true ->
  CommitTx E w = Ret None w' ->
  sent w' = sent w ++ Msgs (tx (bee w)) /\
  committed w' = Dicts (stateCommit (theState (bee w))) /\
  IsOpen (tx (bee w')) = false /\
  Msgs (tx (bee w')) = [].
Proof.
  intros Hopen Hret.
  destruct (CommitTx_open_cases E w Hopen) as (w0 & pre & Heq & Hh0 & Hf0 & Hpath).
  rewrite Heq in Hret.
  destruct (replicateThenCommit_inv E w0) as (t & r & _ & Hcase).
  destruct r as [e|]; [destruct Hcase as (w'' & Hr & _); congruence|].
  destruct Hcase as (rc & w5 & Hh5 & Ht5 & _ & Hs5 & Hrc).
  destruct rc as [e|]; [congruence|].
  destruct Hrc as (rn & w'' & Hr & Hbee & Hh).
  assert (w'' = w') by congruence. subst w''.
  unfold sent, committed. rewrite Hh, Hh5, Hh0, Hbee, Ht5, Hs5.
  split; [|split; [|split; reflexivity]].
  - destruct (ReplicationFactor (beeApp (bee w)) <? 2).
    + destruct Hpath as (r1 & -> & Ht0 & _). rewrite Ht0. simpl.
      rewrite !emitted_app, emitted_map_EvEmit. simpl.
      rewrite !app_nil_r. reflexivity.
    + destruct Hpath as (-> & Ht0 & _). rewrite Ht0. simpl.
      rewrite !emitted_app. simpl. rewrite !emitted_app, emitted_map_EvEmit.
      simpl. rewrite !app_nil_r. reflexivity.
  - destruct (ReplicationFactor (beeApp (bee w)) <? 2).
    + destruct Hpath as (r1 & _ & _ & Hs0). rewrite Hs0.
      destruct r1; reflexivity.
    + destruct Hpath as (_ & _ & Hs0). rewrite Hs0. reflexivity.
Qed.

(** ** AbortTx *)

(** X11: [AbortTx] with no open transaction returns nil and changes
    nothing.  With one open it closes the transaction and empties its
    buffers, asks the state layer to abort and returns the state layer's
    answer; no message is forwarded and the committed contents of the
    dictionaries stay as they were, whatever the state layer answers. *)
Theorem AbortTx_discards_or_noop (E : Env) (w : World) :
  if IsOpen (tx (bee w)) then
    exists r w', AbortTx E w = Ret r w' /\
      history w' = history w ++ [EvStateAbortTx r] /\
      tx (bee w') = Reset (tx (bee w)) /\
      sent w' = sent w /\
      committed w' = committed w
  else AbortTx E w = Ret None w.
Proof.
  pose proof (AbortTx_inv E w) as Ha.
  destruct (IsOpen (tx (bee w))); [|exact Ha].
  destruct Ha as (r & w' & Ha & Hh & Ht & _ & Hs).
  exists r, w'. repeat split; try assumption.
  - unfold sent. rewrite Hh, emitted_app. simpl. apply app_nil_r.
  - unfold committed. rewrite Hs. destruct r; reflexivity.
Qed.

(** ** Whole transactions *)

Lemma begun_then_body (E : Env) (w w1 : World) (cs : list Call) :
  BeginTx E w = Ret None w1 ->
  forallb isBufferCall cs = true ->
  IsOpen (tx (bee w)) = false /\
  IsOpen (tx (bee (run E cs w1))) = true /\
  Msgs (tx (bee (run E cs w1))) = Msgs (tx (bee w)) ++ bodyMsgs (beeID (bee w)) cs /\
  history (run E cs w1) = history w ++ [EvStateBeginTx None] /\
  theState (bee (run E cs w1))
  = {| Dicts := Dicts (theState (bee w)); StOpen := true; StOps := bodyOps cs |}.
Proof.
  intros Hbegin Hcs.
  destruct (BeginTx_inv E w) as (r & w1' & Hb & Hf & Hcase).
  rewrite Hb in Hbegin. injection Hbegin as -> ->.
  destruct Hcase as (Hclosed & Hh & Ht & Hs).
  assert (Hopen1 : IsOpen (tx (bee w1)) = true) by (rewrite Ht; reflexivity).
  destruct (run_buffer_calls E cs w1 Hcs) as (_ & Hs2 & Ht2).
  rewrite Hopen1 in Ht2. destruct Ht2 as (Ht2 & Hh2).
  assert (Hid : beeID (bee w1) = beeID (bee w))
    by (unfold fixedPart in Hf; congruence).
  rewrite Hid in Ht2.
  split; [exact Hclosed|].
  split; [rewrite Ht2, IsOpen_AddMsgs; exact Hopen1|].
  split; [rewrite Ht2, AddMsg_fold, Ht; reflexivity|].
  split; [congruence|].
  rewrite Hs2, Hs, stateWrite_open_fold by reflexivity. reflexivity.
Qed.

(** X12: a transaction that is begun, filled by any number of Emit,
    SendToBee, ReplyTo and dictionary writes, and then aborted leaves no
    trace: no message of it has been forwarded, the committed contents of
    the dictionaries are those from before BeginTx, and the transaction
    is closed with an empty buffer. *)
Theorem aborted_transaction_leaves_no_trace (E : Env) (w w1 : World)
    (cs : list Call) :
  BeginTx E w = Ret None w1 ->
  forallb isBufferCall cs = true ->
  exists r w3,
    AbortTx E (run E cs w1) = Ret r w3 /\
    sent w3 = sent w /\
    committed w3 = committed w /\
    IsOpen (tx (bee w3)) = false /\
    Msgs (tx (bee w3)) = [].
Proof.
  intros Hbegin Hcs.
  destruct (begun_then_body E w w1 cs Hbegin Hcs)
    as (_ & Hopen2 & _ & Hh2 & Hs2).
  pose proof (AbortTx_inv E (run E cs w1)) as Ha. rewrite Hopen2 in Ha.
  destruct Ha as (r & w3 & Ha & Hh & Ht & _ & Hs).
  exists r, w3. split; [exact Ha|]. rewrite Ht.
  split; [|split; [|split; reflexivity]].
  - unfold sent. rewrite Hh, Hh2, !emitted_app. simpl. rewrite !app_nil_r.
    reflexivity.
  - unfold committed. rewrite Hs, Hs2. destruct r; reflexivity.
Qed.

Lemma aborted_transaction_leaves_no_trace_witness :
  exists r w3,
    AbortTx envOk (run envOk scenarioBody (worldOf (BeginTx envOk (freshWorld 2 0))))
    = Ret r w3 /\
    sent w3 = sent (freshWorld 2 0) /\
    committed w3 = committed (freshWorld 2 0) /\
    IsOpen (tx (bee w3)) = false /\
    Msgs (tx (bee w3)) = [].
Proof.
  apply (aborted_transaction_leaves_no_trace envOk (freshWorld 2 0)
           (worldOf (BeginTx envOk (freshWorld 2 0))) scenarioBody);
    vm_compute; reflexivity.
Defined.

(** X13: a transaction that is begun on a bee with an empty buffer,
    filled by any number of Emit, SendToBee, ReplyTo and dictionary
    writes, and committed with success takes effect as a whole: the
    messages forwarded since before BeginTx are exactly the messages of
    those calls, in call order, and the committed contents of the
    dictionaries are the former ones with the writes applied in call
    order. *)
Theorem committed_transaction_takes_effect (E : Env) (w w1 w3 : World)
    (cs : list Call) :
  txClean w ->
  BeginTx E w = Ret None w1 ->
  forallb isBufferCall cs = true ->
  CommitTx E (run E cs w1) = Ret None w3 ->
  sent w3 = sent w ++ bodyMsgs (beeID (bee w)) cs /\
  committed w3 = fold_left applyOp (bodyOps cs) (committed w) /\
  IsOpen (tx (bee w3)) = false.
Proof.
  intros Hclean Hbegin Hcs Hcommit.
  destruct (begun_then_body E w w1 cs Hbegin Hcs)
    as (Hclosed & Hopen2 & Hm2 & Hh2 & Hs2).
  destruct (CommitTx_success_inv E _ w3 Hopen2 Hcommit)
    as (Hsent & Hcom & Hclosed3 & _).
  rewrite (Hclean Hclosed) in Hm2.
  split; [|split; [|exact Hclosed3]].
  - rewrite Hsent, Hm2. unfold sent. rewrite Hh2, emitted_app. simpl.
    rewrite app_nil_r. reflexivity.
  - rewrite Hcom, Hs2. reflexivity.
Qed.

Lemma txClean_freshWorld (rf seq : Z) : txClean (freshWorld rf seq).
Proof. intros _. reflexivity. Defined.

Lemma committed_transaction_takes_effect_witness :
  sent (worldOf (CommitTx envOk
                   (run envOk scenarioBody (worldOf (BeginTx envOk (freshWorld 2 0))))))
  = sent (freshWorld 2 0) ++ bodyMsgs (beeID (bee (freshWorld 2 0))) scenarioBody /\
  committed (worldOf (CommitTx envOk
                        (run envOk scenarioBody (worldOf (BeginTx envOk (freshWorld 2 0))))))
  = fold_left applyOp (bodyOps scenarioBody) (committed (freshWorld 2 0)) /\
  IsOpen (tx (bee (worldOf (CommitTx envOk
                              (run envOk scenarioBody
                                 (worldOf (BeginTx envOk (freshWorld 2 0)))))))) = false.
Proof.
  apply (committed_transaction_takes_effect envOk (freshWorld 2 0)
           (worldOf (BeginTx envOk (freshWorld 2 0))) _ scenarioBody
           (txClean_freshWorld 2 0));
    vm_compute; reflexivity.
Defined.

(** ** Cleaning up *)

Lemma replicateThenCommit_closes (E : Env) (w : World) :
  IsOpen (tx (bee (worldOf (replicateThenCommit E w)))) = false /\
  (Msgs (tx (bee (worldOf (replicateThenCommit E w)))) = [] \/
   IsOpen (tx (bee w)) = false /\
   Msgs (tx (bee (worldOf (replicateThenCommit E w)))) = Msgs (tx (bee w))).
Proof.
  destruct (replicateThenCommit_inv E w) as (t & r & Ht & Hcase).
  destruct r as [e|].
  - destruct Hcase as (w' & Hr & _ & Hab). rewrite Hr. cbn [worldOf].
    destruct (IsOpen (tx (bee w))) eqn:Hopen.
    + destruct Hab as (ra & _ & Htx & _). rewrite Htx. auto.
    + destruct Hab as (_ & Htx & _). rewrite Htx, Ht. auto.
  - destruct Hcase as (rc & w5 & _ & Htx & _ & _ & Hrc).
    destruct rc as [e|].
    + rewrite Hrc. cbn [worldOf]. rewrite Htx. auto.
    + destruct Hrc as (rn & w' & Hr & Hbee & _). rewrite Hr. cbn [worldOf].
      rewrite Hbee, Htx. auto.
Qed.

Lemma CommitTx_closes (E : Env) (w : World) :
  IsOpen (tx (bee (worldOf (CommitTx E w)))) = false /\
  (IsOpen (tx (bee w)) = true -> Msgs (tx (bee (worldOf (CommitTx E w)))) = []).
Proof.
  destruct (IsOpen (tx (bee w))) eqn:Hopen.
  - destruct (CommitTx_open_cases E w Hopen) as (w0 & pre & Heq & _ & _ & Hpath).
    rewrite Heq.
    destruct (replicateThenCommit_closes E w0) as (Hclosed & Hmsgs).
    split; [exact Hclosed|]. intros _.
    destruct Hmsgs as [Hnil|(Hclosed0 & Hsame)]; [exact Hnil|].
    rewrite Hsame.
    destruct (ReplicationFactor (beeApp (bee w)) <? 2).
    + destruct Hpath as (r1 & _ & Ht0 & _). rewrite Ht0. reflexivity.
    + destruct Hpath as (_ & Ht0 & _). rewrite Ht0 in Hclosed0.
      change (IsOpen (tx (bee w)) = false) in Hclosed0. congruence.
  - rewrite CommitTx_eq, Hopen. cbn [worldOf]. split; [exact Hopen|discriminate].
Qed.

Lemma AbortTx_closes (E : Env) (w : World) :
  IsOpen (tx (bee (worldOf (AbortTx E w)))) = false /\
  (IsOpen (tx (bee w)) = true -> Msgs (tx (bee (worldOf (AbortTx E w)))) = []).
Proof.
  pose proof (AbortTx_inv E w) as Ha.
  destruct (IsOpen (tx (bee w))) eqn:Hopen.
  - destruct Ha as (r & w' & Ha & _ & Ht & _). rewrite Ha. cbn [worldOf].
    rewrite Ht. auto.
  - rewrite Ha. cbn [worldOf]. split; [exact Hopen|discriminate].
Qed.

(** X14: whatever the collaborators answer and however the call ends
    (nil, an error, or a fatal exit), [CommitTx] and [AbortTx] leave the
    bee without an open transaction, and a transaction that was open has
    its message buffer emptied. *)
Theorem CommitTx_AbortTx_always_close (E : Env) (w : World) :
  IsOpen (tx (bee (worldOf (CommitTx E w)))) = false /\
  IsOpen (tx (bee (worldOf (AbortTx E w)))) = false /\
  (IsOpen (tx (bee w)) = true ->
   Msgs (tx (bee (worldOf (CommitTx E w)))) = [] /\
   Msgs (tx (bee (worldOf (AbortTx E w)))) = []).
Proof.
  destruct (CommitTx_closes E w) as (Hc & Hcm).
  destruct (AbortTx_closes E w) as (Ha & Ham).
  auto.
Qed.

Lemma CommitTx_AbortTx_always_close_witness :
  IsOpen (tx (bee (worldOf (CommitTx envCommitFails (beforeCommit 2))))) = false /\
  Msgs (tx (bee (worldOf (CommitTx envCommitFails (beforeCommit 2))))) = [].
Proof.
  destruct (CommitTx_AbortTx_always_close envCommitFails (beforeCommit 2))
    as (Hclosed & _ & Hmsgs).
  split; [exact Hclosed|]. apply Hmsgs. vm_compute. reflexivity.
Defined.

Lemma exec_txClean (E : Env) (c : Call) (w : World) :
  txClean w -> txClean (worldOf (exec E c w)).
Proof.
  intros Hclean.
  destruct (isBufferCall c) eqn:Hc.
  - destruct (exec_buffer_call E c w Hc) as (r & w' & Hex & _ & _ & Ht).
    rewrite Hex. cbn [worldOf]. unfold txClean in *.
    destruct (IsOpen (tx (bee w))) eqn:Hopen.
    + destruct Ht as (Ht & _). rewrite Ht, IsOpen_AddMsgs, Hopen. discriminate.
    + destruct Ht as (Ht & _). rewrite Ht. intros _. auto.
  - destruct c; try discriminate; cbn [exec].
    + rewrite worldOf_then_ret. exact Hclean.
    + destruct (BeginTx_inv E w) as (r & w' & Hb & _ & Hcase).
      rewrite Hb. cbn [worldOf]. unfold txClean in *. destruct r as [e|].
      * destruct Hcase as (Ht & _). rewrite Ht. exact Hclean.
      * destruct Hcase as (_ & _ & Ht & _). rewrite Ht. discriminate.
    + destruct (CommitTx_closes E w) as (_ & Hm). unfold txClean in *.
      destruct (IsOpen (tx (bee w))) eqn:Hopen; [auto|].
      rewrite CommitTx_eq, Hopen. cbn [worldOf]. intros _. auto.
    + destruct (AbortTx_closes E w) as (_ & Hm). unfold txClean in *.
      destruct (IsOpen (tx (bee w))) eqn:Hopen; [auto|].
      pose proof (AbortTx_inv E w) as Ha. rewrite Hopen in Ha. rewrite Ha.
      cbn [worldOf]. intros _. auto.
Qed.

(** X15: messages are buffered only while a transaction is open.  If a
    bee holds no buffered message unless its transaction is open, the
    same is true after any sequence of calls, whatever the collaborators
    answer. *)
Theorem txClean_invariant (E : Env) (cs : list Call) (w : World) :
  txClean w -> txClean (run E cs w).
Proof.
  revert w. induction cs as [|c cs IH]; intros w Hclean; [exact Hclean|].
  cbn [run]. pose proof (exec_txClean E c w Hclean) as Hstep.
  destruct (exec E c w) as [r w'|w']; cbn [worldOf] in Hstep; auto.
Qed.

Lemma txClean_invariant_witness :
  txClean (run envNoQuorum threeTransactions (freshWorld 1 0)).
Proof.
  apply (txClean_invariant envNoQuorum threeTransactions (freshWorld 1 0)).
  intros _. reflexivity.
Defined.

(** ** The replication call and the ways a commit ends *)

(** X16: with a replication factor of 2 or more, the first thing
    [CommitTx] does outside the bee is the replication call, and the
    record it submits is the open transaction with its Seq and its
    buffered messages, the generation of the bee's colony at the time of
    the commit and the operation log of the state layer. *)
Theorem CommitTx_replicates_full_record (E : Env) (w : World) :
  2 <= ReplicationFactor (beeApp (bee w)) ->
  IsOpen (tx (bee w)) = true ->
  exists r rest,
    history (worldOf (CommitTx E w))
    = history w
        ++ EvReplicateTx
             {| Status := TxOpen;
                Generation := Colony.Generation (beeColony (bee w));
                Seq := Seq (tx (bee w));
                Msgs := Msgs (tx (bee w));
                Ops := StOps (theState (bee w)) |} r
        :: rest.
Proof.
  intros Hrf Hopen.
  assert (Hlt : (ReplicationFactor (beeApp (bee w)) <? 2) = false)
    by (apply Z.ltb_ge; exact Hrf).
  rewrite (CommitTx_replicated_path E w Hopen Hlt).
  set (w1 := onBee _ w).
  destruct (replicateThenCommit_inv E w1) as (t & r & Ht & Hcase).
  assert (Hrec : t = {| Status := TxOpen;
                        Generation := Colony.Generation (beeColony (bee w));
                        Seq := Seq (tx (bee w));
                        Msgs := Msgs (tx (bee w));
                        Ops := StOps (theState (bee w)) |}).
  { rewrite Ht. subst w1. unfold setOps. autorewrite with bee_simp. simpl.
    apply IsOpen_true in Hopen. rewrite Hopen. reflexivity. }
  rewrite <- Hrec. exists r.
  destruct r as [e|].
  - destruct Hcase as (w' & Hr & _ & Hab).
    change (IsOpen (tx (bee w1))) with (IsOpen (tx (bee w))) in Hab.
    rewrite Hopen in Hab. destruct Hab as (ra & Hh & _).
    rewrite Hr. cbn [worldOf]. eexists. rewrite Hh. reflexivity.
  - destruct Hcase as (rc & w5 & Hh5 & _ & _ & _ & Hrc).
    destruct rc as [e|].
    + rewrite Hrc. cbn [worldOf]. eexists. rewrite Hh5. reflexivity.
    + destruct Hrc as (rn & w' & Hr & _ & Hh). rewrite Hr. cbn [worldOf].
      eexists. rewrite Hh, Hh5. rewrite <- app_assoc. reflexivity.
Qed.

Lemma CommitTx_replicates_full_record_witness :
  exists r rest,
    history (worldOf (CommitTx envNoQuorum (beforeCommit 2)))
    = history (beforeCommit 2)
        ++ EvReplicateTx
             {| Status := TxOpen;
                Generation := Colony.Generation (beeColony (bee (beforeCommit 2)));
                Seq := Seq (tx (bee (beforeCommit 2)));
                Msgs := Msgs (tx (bee (beforeCommit 2)));
                Ops := StOps (theState (bee (beforeCommit 2))) |} r
        :: rest.
Proof.
  apply (CommitTx_replicates_full_record envNoQuorum (beforeCommit 2)).
  - vm_compute. discriminate.
  - vm_compute. reflexivity.
Defined.

(** X17: [CommitTx] ends in a fatal exit only when the replication call
    has succeeded and the commit of the state layer that follows it has
    failed; by then every buffered message has been forwarded and the
    transaction record has been reset. *)
Theorem CommitTx_fatal_only_after_replication (E : Env) (w w' : World) :
  CommitTx E w = Fatal w' ->
  IsOpen (tx (bee w)) = true /\
  sent w' = sent w ++ Msgs (tx (bee w)) /\
  IsOpen (tx (bee w')) = false /\
  exists h t e,
    history w' = history w ++ h ++ [EvStateCommitTx (Some e)] /\
    In (EvReplicateTx t None) h.
Proof.
  intros Hfatal.
  destruct (IsOpen (tx (bee w))) eqn:Hopen;
    [|rewrite CommitTx_eq, Hopen in Hfatal; discriminate].
  split; [reflexivity|].
  destruct (CommitTx_open_cases E w Hopen) as (w0 & pre & Heq & Hh0 & _ & Hpath).
  rewrite Heq in Hfatal.
  destruct (replicateThenCommit_inv E w0) as (t & r & _ & Hcase).
  destruct r as [e|]; [destruct Hcase as (w'' & Hr & _); congruence|].
  destruct Hcase as (rc & w5 & Hh5 & Ht5 & _ & _ & Hrc).
  destruct rc as [e|]; [|destruct Hrc as (rn & w'' & Hr & _); congruence].
  assert (w5 = w') by congruence. subst w5.
  rewrite Ht5. split; [|split; [reflexivity|]].
  - unfold sent. rewrite Hh5, Hh0.
    destruct (ReplicationFactor (beeApp (bee w)) <? 2).
    + destruct Hpath as (r1 & -> & Ht0 & _). rewrite Ht0. simpl.
      rewrite !emitted_app, emitted_map_EvEmit. simpl.
      rewrite !app_nil_r. reflexivity.
    + destruct Hpath as (-> & Ht0 & _). rewrite Ht0. simpl.
      rewrite !emitted_app. simpl. rewrite !emitted_app, emitted_map_EvEmit.
      simpl. rewrite !app_nil_r. reflexivity.
  - exists (pre ++ EvReplicateTx t None :: map EvEmit (Msgs (tx (bee w0)))), t, e.
    split.
    + rewrite Hh5, Hh0. repeat (rewrite <- app_assoc; simpl). reflexivity.
    + apply in_or_app. right. left. reflexivity.
Qed.

Lemma CommitTx_fatal_only_after_replication_witness :
  sent (worldOf (CommitTx envCommitFails (beforeCommit 2)))
  = sent (beforeCommit 2) ++ Msgs (tx (bee (beforeCommit 2))).
Proof.
  apply (CommitTx_fatal_only_after_replication envCommitFails (beforeCommit 2)
           (worldOf (CommitTx envCommitFails (beforeCommit 2)))).
  vm_compute. reflexivity.
Defined.

(** X18: when [CommitTx] on an open transaction returns to its caller,
    what it returns is what the replication call answered, nil or the
    error: a failure to notify the replicas is never returned, and on
    the fast path neither is an error of the first commit of the state
    layer. *)
Theorem CommitTx_returns_replication_result (E : Env) (w w' : World)
    (r : option Error) :
  IsOpen (tx (bee w)) = true ->
  CommitTx E w = Ret r w' ->
  exists h1 t h2,
    history w' = history w ++ h1 ++ EvReplicateTx t r :: h2 /\
    forallb (fun e => negb (isReplicateTx e)) (h1 ++ h2) = true.
Proof.
  intros Hopen Hret.
  destruct (CommitTx_open_cases E w Hopen) as (w0 & pre & Heq & Hh0 & _ & Hpath).
  rewrite Heq in Hret.
  assert (Hemits : forall ms, forallb (fun e => negb (isReplicateTx e))
                                (map EvEmit ms) = true)
    by (induction ms; simpl; auto).
  assert (Hpre : forallb (fun e => negb (isReplicateTx e)) pre = true).
  { destruct (ReplicationFactor (beeApp (bee w)) <? 2).
    - destruct Hpath as (r1 & -> & _). rewrite forallb_app, Hemits. reflexivity.
    - destruct Hpath as (-> & _). reflexivity. }
  destruct (replicateThenCommit_inv E w0) as (t & r0 & _ & Hcase).
  destruct r0 as [e|].
  - destruct Hcase as (w'' & Hr & _ & Hab).
    assert (r = Some e /\ w'' = w') as [-> ->] by (split; congruence).
    destruct (IsOpen (tx (bee w0))).
    + destruct Hab as (ra & Hh & _). exists pre, t, [EvStateAbortTx ra].
      rewrite Hh, Hh0, forallb_app, Hpre. repeat (rewrite <- app_assoc; simpl).
      split; reflexivity.
    + destruct Hab as (Hh & _). exists pre, t, [].
      rewrite Hh, Hh0, forallb_app, Hpre. repeat (rewrite <- app_assoc; simpl).
      split; reflexivity.
  - destruct Hcase as (rc & w5 & Hh5 & _ & _ & _ & Hrc).
    destruct rc as [e|]; [congruence|].
    destruct Hrc as (rn & w'' & Hr & _ & Hh).
    assert (r = None /\ w'' = w') as [-> ->] by (split; congruence).
    exists pre, t. eexists.
    rewrite Hh, Hh5, Hh0. repeat (rewrite <- app_assoc; simpl).
    split; [reflexivity|].
    rewrite !forallb_app, Hpre, Hemits. reflexivity.
Qed.

Lemma CommitTx_returns_replication_result_witness :
  exists h1 t h2,
    history (worldOf (CommitTx envNotifyFails (beforeCommit 2)))
    = history (beforeCommit 2) ++ h1 ++ EvReplicateTx t None :: h2 /\
    forallb (fun e => negb (isReplicateTx e)) (h1 ++ h2) = true.
Proof.
  apply (CommitTx_returns_replication_result envNotifyFails (beforeCommit 2)
           (worldOf (CommitTx envNotifyFails (beforeCommit 2))) None);
    vm_compute; reflexivity.
Defined.

(** ** BeginTx and the state of the bee *)

(** X19: [BeginTx] always returns.  When it returns an error, because a
    transaction is open or because the state layer refuses to begin,
    nothing has happened to the transaction record (no transaction has
    been opened and no sequence number used), no message has been
    forwarded and the committed contents of the dictionaries are
    unchanged. *)
Theorem BeginTx_failure_changes_nothing (E : Env) (w : World) :
  (exists r w', BeginTx E w = Ret r w') /\
  (forall e w', BeginTx E w = Ret (Some e) w' ->
     tx (bee w') = tx (bee w) /\
     sent w' = sent w /\
     committed w' = committed w).
Proof.
  destruct (BeginTx_inv E w) as (r & w1 & Hb & _ & Hcase).
  split; [eauto|].
  intros e w' Hret. rewrite Hb in Hret. injection Hret as -> ->.
  destruct Hcase as (Ht & Hs & Hh).
  split; [exact Ht|]. unfold sent, committed. rewrite Hs.
  split; [|reflexivity].
  destruct (IsOpen (tx (bee w))); rewrite Hh; [reflexivity|].
  rewrite emitted_app. simpl. apply app_nil_r.
Qed.

Lemma BeginTx_failure_changes_nothing_witness :
  tx (bee (worldOf (BeginTx envBeginFails (freshWorld 2 5))))
  = tx (bee (freshWorld 2 5)).
Proof.
  apply (proj2 (BeginTx_failure_changes_nothing envBeginFails (freshWorld 2 5))
           "state busy"%string (worldOf (BeginTx envBeginFails (freshWorld 2 5)))).
  vm_compute. reflexivity.
Defined.

(** X20: [txState] creates the state of the bee the first time it is
    needed and never afterwards: it answers with the state the bee has,
    or with a new one that the bee keeps from then on, so that a second
    call answers the same and changes nothing; the transaction record
    and the history are not touched. *)
Theorem txState_creates_once (w : World) :
  exists w1,
    txState w = Ret (theState (bee w)) w1 /\
    state (bee w1) = Some (theState (bee w)) /\
    tx (bee w1) = tx (bee w) /\
    history w1 = history w /\
    txState w1 = Ret (theState (bee w)) w1.
Proof.
  unfold txState, bind, getBee, modifyBee, ret, theState.
  destruct (state (bee w)) as [s|] eqn:Hst.
  - exists w. rewrite Hst. repeat split; assumption.
  - eexists. split; [reflexivity|]. cbn. repeat split.
Qed.

End BeeFacts.

(** * Properties of the connection handler *)

Module StageFacts.
Import actor.

Lemma written_app (t1 t2 : list Event) :
  written (t1 ++ t2) = written t1 ++ written t2.
Proof.
  induction t1 as [|e t1 IH]; simpl; [reflexivity|].
  destruct e; simpl; rewrite ?IH; reflexivity.
Qed.

Lemma serve_loop_events (s : stage) (id : RcvrId) (rcvr : receiver)
    (input : list wire) :
  forall handlers : gmap string (list Handler),
    forallb (isLoopEvent rcvr) (serve s id rcvr handlers input) = true.
Proof.
  induction input as [|x input IH]; intros handlers; [reflexivity|].
  destruct x as [i|m|]; try reflexivity.
  cbn [serve].
  destruct (handlers !! msgType m) as [hs|];
    cbn [forallb isLoopEvent andb]; rewrite forallb_app, IH, andb_true_r;
    apply forallb_forall; intros e He; apply in_map_iff in He as (h & <- & _);
    simpl; apply Z.eqb_refl.
Qed.

Lemma written_loop_events (rcvr : receiver) (t : list Event) :
  forallb (isLoopEvent rcvr) t = true -> written t = [].
Proof.
  induction t as [|e t IH]; [reflexivity|].
  simpl. intros H. apply andb_prop in H as [He Ht].
  destruct e; try discriminate; simpl; auto.
Qed.

(** C8: whatever the peer sends, the handler first decodes the RcvrId.
    If it resolves to no receiver (no such actor, or the control loop
    finds no such receiver), the handler does nothing more than close the
    connection: nothing is written back, no message is decoded, nothing
    is enqueued.  If it resolves to a receiver, the handler writes the
    acknowledgment [true], once and right after the resolution; the
    decoding of messages and the enqueuing on that receiver all come
    after it, and the connection is closed at the end. *)
Theorem handleConn_ack_only_when_resolved (s : stage) (input : list wire) :
  match resolve s (fst (decodeRcvrId input)) with
  | None =>
      handleConn s input = [EvDecodeRcvrId (fst (decodeRcvrId input)); EvClose] /\
      written (handleConn s input) = []
  | Some rcvr =>
      exists loop : list Event,
        handleConn s input
        = EvDecodeRcvrId (fst (decodeRcvrId input)) :: EvEncode true :: loop ++ [EvClose] /\
        forallb (isLoopEvent rcvr) loop = true /\
        written (handleConn s input) = [true]
  end.
Proof.
  unfold handleConn, resolve.
  destruct (decodeRcvrId input) as [id rest]. cbn [fst].
  destruct (actor s (ActorName id)) as [a|]; [|split; reflexivity].
  destruct (findRcvr a (Id id)) as [rcvr|]; [|split; reflexivity].
  exists (serve s id rcvr ∅ rest).
  pose proof (serve_loop_events s id rcvr rest ∅) as Hloop.
  split; [reflexivity|]. split; [exact Hloop|].
  cbn [written app]. rewrite written_app.
  rewrite (written_loop_events rcvr _ Hloop). reflexivity.
Qed.

(** Scenario A: bee 7 of Counter exists; each Incr goes to the two
    handlers registered for Counter. *)
Example scenario_A :
  handleConn counterStage
    [WireRcvrId {| ActorName := "Counter"; Id := 7 |};
     WireMsg (incr "a"); WireMsg (incr "b")]
  = [EvDecodeRcvrId {| ActorName := "Counter"; Id := 7 |};
     EvEncode true;
     EvDecodeMsg (Some (incr "a"));
     EvEnque 70 (incr "a") "incr1"; EvEnque 70 (incr "a") "incr2";
     EvDecodeMsg (Some (incr "b"));
     EvEnque 70 (incr "b") "incr1"; EvEnque 70 (incr "b") "incr2";
     EvDecodeMsg None;
     EvClose].
Proof. vm_compute. reflexivity. Qed.

(** Scenario B: receiver 999 is not registered. *)
Example scenario_B :
  handleConn counterStage
    [WireRcvrId {| ActorName := "Counter"; Id := 999 |}; WireMsg (incr "a")]
  = [EvDecodeRcvrId {| ActorName := "Counter"; Id := 999 |}; EvClose].
Proof. vm_compute. reflexivity. Qed.

Lemma serve_dispatch (s : stage) (id : RcvrId) (rcvr : receiver)
    (input : list wire) :
  forall handlers : gmap string (list Handler),
    (forall t hs, handlers !! t = Some hs ->
                  hs = handlersOf (ActorName id) (mappersFor s t)) ->
    serve s id rcvr handlers input = dispatch s id rcvr input.
Proof.
  induction input as [|x input IH]; intros handlers Hcache; [reflexivity|].
  destruct x as [i|m|]; try reflexivity.
  cbn [serve dispatch].
  destruct (handlers !! msgType m) as [hs|] eqn:Hlookup.
  - rewrite (Hcache _ _ Hlookup), (IH handlers Hcache). reflexivity.
  - rewrite IH; [reflexivity|].
    intros t hs. rewrite lookup_insert. case_decide as Ht.
    + intros [= <-]. subst t. reflexivity.
    + apply Hcache.
Qed.

Lemma handleConn_resolved (s : stage) (input : list wire) (rcvr : receiver) :
  resolve s (fst (decodeRcvrId input)) = Some rcvr ->
  handleConn s input
  = EvDecodeRcvrId (fst (decodeRcvrId input)) :: EvEncode true
      :: dispatch s (fst (decodeRcvrId input)) rcvr (snd (decodeRcvrId input))
      ++ [EvClose].
Proof.
  unfold handleConn, resolve.
  destruct (decodeRcvrId input) as [id rest]. cbn [fst snd].
  destruct (actor s (ActorName id)) as [a|]; [|discriminate].
  intros ->. rewrite serve_dispatch; [reflexivity|].
  intros t hs. rewrite lookup_empty. discriminate.
Qed.



Lemma dispatch_stops (s : stage) (id : RcvrId) (rcvr : receiver)
    (msgs : list msg) (bad : wire) (tail : list wire) :
  isWireMsg bad = false ->
  dispatch s id rcvr (map WireMsg msgs ++ bad :: tail)
  = dispatch s id rcvr (map WireMsg msgs).
Proof.
  intros Hbad. induction msgs as [|m msgs IH]; simpl.
  - destruct bad; [reflexivity|discriminate|reflexivity].
  - rewrite IH. reflexivity.
Qed.

Lemma serve_stops (s : stage) (id : RcvrId) (rcvr : receiver)
    (msgs : list msg) (bad : wire) (tail : list wire) :
  isWireMsg bad = false ->
  forall handlers : gmap string (list Handler),
    serve s id rcvr handlers (map WireMsg msgs ++ bad :: tail)
    = serve s id rcvr handlers (map WireMsg msgs).
Proof.
  intros Hbad. induction msgs as [|m msgs IH]; intros handlers; simpl.
  - destruct bad; [reflexivity|discriminate|reflexivity].
  - destruct (handlers !! msgType m); rewrite IH; reflexivity.
Qed.

(** X8: the session ends at the first record after the handshake that is
    not a message: whatever the peer sends after it is neither decoded
    nor enqueued, and the handler does exactly what it does when the
    stream ends at that point. *)
Theorem handleConn_stops_at_first_bad_record (s : stage) (first bad : wire)
    (msgs : list msg) (tail : list wire) :
  isWireMsg bad = false ->
  handleConn s (first :: map WireMsg msgs ++ bad :: tail)
  = handleConn s (first :: map WireMsg msgs).
Proof.
  intros Hbad. unfold handleConn.
  destruct first as [i|m|]; cbn [decodeRcvrId];
    (destruct (actor s _) as [a|]; [|reflexivity]);
    (destruct (findRcvr a _) as [rcvr|]; [|reflexivity]);
    rewrite serve_stops by exact Hbad; reflexivity.
Qed.

Lemma handleConn_stops_at_first_bad_record_witness :
  handleConn counterStage
    (WireRcvrId {| ActorName := "Counter"; Id := 7 |}
       :: map WireMsg [incr "a"] ++ WireOther :: [WireMsg (incr "b")])
  = handleConn counterStage
      (WireRcvrId {| ActorName := "Counter"; Id := 7 |} :: map WireMsg [incr "a"]).
Proof.
  apply (handleConn_stops_at_first_bad_record counterStage
           (WireRcvrId {| ActorName := "Counter"; Id := 7 |}) WireOther
           [incr "a"] [WireMsg (incr "b")]).
  reflexivity.
Defined.

Lemma dispatch_enque_sound (s : stage) (id : RcvrId) (rcvr : receiver)
    (input : list wire) (r : receiver) (m : msg) (h : Handler) :
  In (EvEnque r m h) (dispatch s id rcvr input) ->
  r = rcvr /\
  In (WireMsg m) input /\
  In {| actorName := ActorName id; handler := h |} (mappersFor s (msgType m)).
Proof.
  induction input as [|x input IH]; simpl.
  - intros [H|[]]; discriminate.
  - destruct x as [i|m'|]; simpl; try (intros [H|[]]; discriminate).
    intros [H|H]; [discriminate|].
    apply in_app_or in H as [H|H].
    + apply in_map_iff in H as (h' & Heq & Hin).
      injection Heq as <- <- <-.
      split; [reflexivity|]. split; [left; reflexivity|].
      clear IH. induction (mappersFor s (msgType m')) as [|mh mhs IHm];
        simpl in *; [contradiction|].
      destruct (String.eqb_spec (actorName mh) (ActorName id)) as [Hname|Hname].
      * destruct Hin as [<-|Hin]; [left|right; auto].
        destruct mh; simpl in *; subst; reflexivity.
      * right; auto.
    + destruct (IH H) as (Hr & Hm & Hh). auto.
Qed.

(** X9: whatever is enqueued during a connection is enqueued on the
    receiver the RcvrId resolved to, is a message the peer sent after the
    handshake, and goes to a handler registered, for the message's type,
    under the name of the addressed actor: never to another receiver and
    never to a handler of another actor. *)
Theorem handleConn_enqueues_only_for_addressed_actor (s : stage)
    (input : list wire) (r : receiver) (m : msg) (h : Handler) :
  In (EvEnque r m h) (handleConn s input) ->
  resolve s (fst (decodeRcvrId input)) = Some r /\
  In (WireMsg m) (snd (decodeRcvrId input)) /\
  In {| actorName := ActorName (fst (decodeRcvrId input)); handler := h |}
     (mappersFor s (msgType m)).
Proof.
  intros Hin.
  destruct (resolve s (fst (decodeRcvrId input))) as [rcvr|] eqn:Hres.
  - rewrite (handleConn_resolved s input rcvr Hres) in Hin.
    destruct Hin as [H|[H|Hin]]; try discriminate.
    apply in_app_or in Hin as [Hin|[H|[]]]; [|discriminate].
    apply dispatch_enque_sound in Hin as (-> & Hm & Hh). auto.
  - exfalso. revert Hin Hres. unfold handleConn, resolve.
    destruct (decodeRcvrId input) as [id rest]. cbn [fst].
    destruct (actor s (ActorName id)) as [a|].
    + intros Hin Hnone. rewrite Hnone in Hin.
      destruct Hin as [H|[H|[]]]; discriminate.
    + intros Hin _. destruct Hin as [H|[H|[]]]; discriminate.
Qed.

Lemma handleConn_enqueues_only_for_addressed_actor_witness :
  resolve counterStage {| ActorName := "Counter"; Id := 7 |} = Some 70 /\
  In {| actorName := "Counter"; handler := "incr2" |}
     (mappersFor counterStage "Incr").
Proof.
  destruct (handleConn_enqueues_only_for_addressed_actor counterStage
              [WireRcvrId {| ActorName := "Counter"; Id := 7 |}; WireMsg (incr "a")]
              70 (incr "a") "incr2") as (Hres & _ & Hh).
  - vm_compute. right; right; right; right. left. reflexivity.
  - split; [exact Hres|exact Hh].
Defined.



End StageFacts.

(** * Properties of the hive set-up *)

Module TeFacts.
Import te.

Lemma wrap64_small (z : Z) : int64 z -> wrap64 z = z.
Proof.
  unfold int64, wrap64. intros Hz.
  rewrite Z.mod_small by lia. lia.
Qed.

Lemma forLoop_seqZ (body : Z -> Action) (hi : Z) (fuel : nat) :
  forall i : Z,
    int64 i -> int64 hi ->
    (Z.to_nat (hi - i) <= fuel)%nat ->
    forLoop fuel i hi body = map body (seqZ i (hi - i)).
Proof.
  induction fuel as [|fuel IH]; intros i Hi Hhi Hfuel.
  - simpl. rewrite seqZ_nil by lia. reflexivity.
  - simpl. destruct (Z.ltb_spec i hi) as [Hlt|Hge].
    + rewrite wrap64_small by (unfold int64 in *; lia).
      rewrite IH by (unfold int64 in *; lia).
      rewrite (seqZ_cons i) by lia. simpl.
      do 3 f_equal; lia.
    + rewrite seqZ_nil by lia. reflexivity.
Qed.

Lemma forRange_seqZ (body : Z -> Action) (lo hi : Z) :
  int64 lo -> int64 hi ->
  forRange lo hi body = map body (seqZ lo (hi - lo)).
Proof. intros Hlo Hhi. apply forLoop_seqZ; auto. Qed.

Lemma emits_app (t1 t2 : list Action) : emits (t1 ++ t2) = emits t1 ++ emits t2.
Proof.
  induction t1 as [|a t1 IH]; [reflexivity|].
  destruct a; simpl; rewrite ?IH; reflexivity.
Qed.

Lemma emits_map_Emit (g : Z -> Msg) (l : list Z) :
  emits (map (fun i => Emit (g i)) l) = map g l.
Proof. induction l as [|i l IH]; simpl; congruence. Qed.

Lemma statQueries_app (m1 m2 : list Msg) :
  statQueries (m1 ++ m2) = statQueries m1 ++ statQueries m2.
Proof.
  induction m1 as [|a m1 IH]; [reflexivity|].
  destruct a; simpl; rewrite ?IH; reflexivity.
Qed.

Lemma switchJoins_app (m1 m2 : list Msg) :
  switchJoins (m1 ++ m2) = switchJoins m1 ++ switchJoins m2.
Proof.
  induction m1 as [|a m1 IH]; [reflexivity|].
  destruct a; simpl; rewrite ?IH; reflexivity.
Qed.

Lemma matrixUpdates_app (m1 m2 : list Msg) :
  matrixUpdates (m1 ++ m2) = (matrixUpdates m1 + matrixUpdates m2)%nat.
Proof.
  induction m1 as [|a m1 IH]; [reflexivity|].
  destruct a; simpl; rewrite ?IH; reflexivity.
Qed.

Lemma hiveAddrs_app (t1 t2 : list Action) :
  hiveAddrs (t1 ++ t2) = hiveAddrs t1 ++ hiveAddrs t2.
Proof.
  induction t1 as [|a t1 IH]; [reflexivity|].
  destruct a; simpl; rewrite ?IH; reflexivity.
Qed.

Lemma drivers_app (t1 t2 : list Action) :
  drivers (t1 ++ t2) = drivers t1 ++ drivers t2.
Proof.
  induction t1 as [|a t1 IH]; [reflexivity|].
  destruct a as [| | | ? ? h | | | | |]; simpl; rewrite ?IH; try reflexivity.
  destruct h; try reflexivity. destruct (String.eqb _ _); simpl; congruence.
Qed.

Lemma statQueries_StatQuery (l : list Z) : statQueries (map StatQuery l) = l.
Proof. induction l as [|i l IH]; simpl; congruence. Qed.

Lemma statQueries_SwitchJoined (l : list Z) : statQueries (map SwitchJoined l) = [].
Proof. induction l as [|i l IH]; simpl; congruence. Qed.

Lemma switchJoins_SwitchJoined (l : list Z) : switchJoins (map SwitchJoined l) = l.
Proof. induction l as [|i l IH]; simpl; congruence. Qed.

Lemma switchJoins_StatQuery (l : list Z) : switchJoins (map StatQuery l) = [].
Proof. induction l as [|i l IH]; simpl; congruence. Qed.

Lemma matrixUpdates_StatQuery (l : list Z) : matrixUpdates (map StatQuery l) = O.
Proof. induction l as [|i l IH]; simpl; congruence. Qed.

Lemma matrixUpdates_SwitchJoined (l : list Z) : matrixUpdates (map SwitchJoined l) = O.
Proof. induction l as [|i l IH]; simpl; congruence. Qed.

(** What [createHive] emits: MatrixUpdate first if the router is to be
    locked, then one StatQuery per switch of the driver's range in
    ascending order, then one SwitchJoined per switch of the collector's
    range; an empty or inverted range contributes nothing. *)
Lemma createHive_emits_eq (hiveAddr : string) (minDriver maxDriver minCol maxCol : Z)
    (stickyCollector lockRouter : bool) :
  int64 minDriver -> int64 maxDriver -> int64 minCol -> int64 maxCol ->
  emits (createHive hiveAddr minDriver maxDriver minCol maxCol
           stickyCollector lockRouter)
  = (if lockRouter then [MatrixUpdate] else [])
    ++ map StatQuery (seqZ minDriver (maxDriver - minDriver))
    ++ map SwitchJoined (seqZ minCol (maxCol - minCol)).
Proof.
  intros HminD HmaxD HminC HmaxC. unfold createHive.
  rewrite !emits_app. cbn [emits app].
  f_equal; [destruct lockRouter; reflexivity|].
  rewrite app_nil_r. f_equal.
  - destruct (Z.eqb_spec maxDriver minDriver) as [->|Hne]; cbn [negb emits].
    + rewrite seqZ_nil by lia. reflexivity.
    + rewrite forRange_seqZ by assumption. apply emits_map_Emit.
  - destruct (Z.eqb_spec maxCol minCol) as [->|Hne]; cbn [negb emits].
    + rewrite seqZ_nil by lia. reflexivity.
    + rewrite forRange_seqZ by assumption. apply emits_map_Emit.
Qed.

Lemma proj_concat {A B} (P : list A -> list B)
    (Happ : forall a b, P (a ++ b) = P a ++ P b) (Hnil : P [] = [])
    (l : list (list A)) :
  P (concat l) = concat (map P l).
Proof.
  induction l as [|x l IH]; simpl; [exact Hnil|].
  rewrite Happ, IH. reflexivity.
Qed.

Lemma concat_seqZ_blocks (d : Z) (n : nat) :
  0 <= d ->
  concat (map (fun h => seqZ (h * d) d) (seqZ 0 (Z.of_nat n)))
  = seqZ 0 (Z.of_nat n * d).
Proof.
  intros Hd. induction n as [|n IH].
  - simpl. rewrite seqZ_nil by lia. reflexivity.
  - rewrite seqZ_S, map_app, concat_app, IH. simpl. rewrite app_nil_r.
    replace (Z.of_nat (S n) * d) with (Z.of_nat n * d + d) by lia.
    rewrite seqZ_app by lia. repeat f_equal; lia.
Qed.

Lemma quot_multiple_bound (n m k : Z) :
  int64 n -> 0 < m -> 0 <= k <= m -> int64 (k * Z.quot n m).
Proof.
  unfold int64. intros Hn Hm Hk.
  destruct (Z.le_gt_cases 0 n) as [Hpos|Hneg].
  - rewrite Z.quot_div_nonneg by lia.
    pose proof (Z.div_pos n m Hpos Hm).
    pose proof (Z.mul_div_le n m Hm). nia.
  - replace n with (- (- n)) by lia. rewrite Z.quot_opp_l by lia.
    rewrite Z.quot_div_nonneg by lia.
    assert (0 <= - n) as Hpos by lia.
    pose proof (Z.div_pos (- n) m Hpos Hm).
    pose proof (Z.mul_div_le (- n) m Hm). nia.
Qed.

Lemma hiveLoop_concat (f : Flags) (fuel : nat) :
  inRange f ->
  forall h : Z,
    0 <= h <= nhives f ->
    (Z.to_nat (nhives f - h) <= fuel)%nat ->
    hiveLoop f (wrap64 (Z.quot (nswitches f) (nhives f)))
      (if centralized f then 0 else wrap64 (Z.quot (nswitches f) (nhives f)))
      fuel h (7777 + h)
    = concat (map (hiveTrace f) (seqZ h (nhives f - h))).
Proof.
  intros (Hnh & Hport & Hns).
  assert (Hq : forall k, 0 <= k <= nhives f ->
                 int64 (k * Z.quot (nswitches f) (nhives f)))
    by (intros k Hk; apply quot_multiple_bound; assumption).
  assert (Hq1 : wrap64 (Z.quot (nswitches f) (nhives f))
                = Z.quot (nswitches f) (nhives f)).
  { apply wrap64_small. specialize (Hq 1). rewrite Z.mul_1_l in Hq.
    apply Hq. lia. }
  rewrite Hq1.
  induction fuel as [|fuel IH]; intros h Hh Hfuel.
  - simpl. rewrite seqZ_nil by lia. reflexivity.
  - cbn [hiveLoop]. destruct (Z.ltb_spec h (nhives f)) as [Hlt|Hge].
    + rewrite (seqZ_cons h) by lia. cbn [map concat].
      assert (Hh1 : wrap64 (h + 1) = h + 1)
        by (apply wrap64_small; unfold int64; lia).
      assert (Hp1 : wrap64 (7777 + h + 1) = 7777 + (h + 1))
        by (rewrite wrap64_small by (unfold int64; lia); lia).
      rewrite Hh1, Hp1, IH by lia.
      replace (Z.pred (nhives f - h)) with (nhives f - (h + 1)) by lia.
      replace (Z.succ h) with (h + 1) by lia.
      f_equal. unfold hiveTrace.
      rewrite !(wrap64_small (_ * Z.quot _ _)) by (apply Hq; lia).
      destruct (centralized f); cbn [andb]; [destruct (h =? 0)|];
        rewrite ?Z.mul_0_r; try reflexivity.
      rewrite !(wrap64_small (_ * Z.quot _ _)) by (apply Hq; lia).
      reflexivity.
    + rewrite seqZ_nil by lia. reflexivity.
Qed.

Lemma main_hives (f : Flags) :
  inRange f ->
  main f = Some (concat (map (hiveTrace f) (seqZ 0 (nhives f)))).
Proof.
  intros Hf. pose proof Hf as (Hnh & _). unfold main.
  destruct (Z.eqb_spec (nhives f) 0) as [H0|_]; [lia|].
  f_equal.
  pose proof (hiveLoop_concat f (Z.to_nat (nhives f)) Hf 0) as Hloop.
  rewrite Z.sub_0_r in Hloop. apply Hloop; lia.
Qed.

Lemma hiveTrace_emits (f : Flags) (h : Z) :
  inRange f -> 0 <= h < nhives f ->
  emits (hiveTrace f h)
  = (if centralized f && (h =? 0) then [MatrixUpdate] else [])
    ++ map StatQuery (seqZ (h * Z.quot (nswitches f) (nhives f))
                           (Z.quot (nswitches f) (nhives f)))
    ++ map SwitchJoined
         (if centralized f
          then if h =? 0 then seqZ 0 (nswitches f) else []
          else seqZ (h * Z.quot (nswitches f) (nhives f))
                    (Z.quot (nswitches f) (nhives f))).
Proof.
  intros (Hnh & Hport & Hns) Hh.
  assert (Hq : forall k, 0 <= k <= nhives f ->
                 int64 (k * Z.quot (nswitches f) (nhives f)))
    by (intros k Hk; apply quot_multiple_bound; assumption).
  assert (H0 : int64 0) by (unfold int64; lia).
  set (d := Z.quot (nswitches f) (nhives f)) in *.
  assert (Hd : (h + 1) * d - h * d = d) by lia.
  unfold hiveTrace. fold d.
  destruct (centralized f); cbn [andb].
  - destruct (Z.eqb_spec h 0) as [->|Hne].
    + rewrite emits_app, createHive_emits_eq, ?Hd by (auto; apply Hq; lia).
      cbn [emits]. rewrite app_nil_r, Z.sub_0_r. reflexivity.
    + rewrite createHive_emits_eq, ?Hd
        by (rewrite ?Z.mul_0_r; auto; apply Hq; lia).
      rewrite !Z.mul_0_r. rewrite (seqZ_nil 0 (0 - 0)) by lia. reflexivity.
  - rewrite createHive_emits_eq, ?Hd by (apply Hq; lia). reflexivity.
Qed.

Lemma hiveAddrs_forLoop_Emit (g : Z -> Msg) (hi : Z) (fuel : nat) :
  forall i : Z, hiveAddrs (forLoop fuel i hi (fun i => Emit (g i))) = [].
Proof.
  induction fuel as [|fuel IH]; intros i; simpl; [reflexivity|].
  destruct (i <? hi); simpl; auto.
Qed.

Lemma drivers_forLoop_Emit (g : Z -> Msg) (hi : Z) (fuel : nat) :
  forall i : Z, drivers (forLoop fuel i hi (fun i => Emit (g i))) = [].
Proof.
  induction fuel as [|fuel IH]; intros i; simpl; [reflexivity|].
  destruct (i <? hi); simpl; auto.
Qed.

Lemma createHive_hiveAddrs (hiveAddr : string) (minDriver maxDriver minCol maxCol : Z)
    (stickyCollector lockRouter : bool) :
  hiveAddrs (createHive hiveAddr minDriver maxDriver minCol maxCol
               stickyCollector lockRouter) = [hiveAddr].
Proof.
  unfold createHive, forRange. rewrite !hiveAddrs_app. cbn [hiveAddrs app].
  destruct lockRouter, (negb (maxDriver =? minDriver)), (negb (maxCol =? minCol));
    cbn [hiveAddrs app]; rewrite ?hiveAddrs_forLoop_Emit; reflexivity.
Qed.

Lemma createHive_drivers (hiveAddr : string) (minDriver maxDriver minCol maxCol : Z)
    (stickyCollector lockRouter : bool) :
  drivers (createHive hiveAddr minDriver maxDriver minCol maxCol
             stickyCollector lockRouter)
  = [(minDriver, wrap64 (maxDriver - minDriver))].
Proof.
  unfold createHive, forRange. rewrite !drivers_app.
  destruct lockRouter, (negb (maxDriver =? minDriver)), (negb (maxCol =? minCol));
    cbn [drivers app String.eqb Ascii.eqb Bool.eqb];
    rewrite ?drivers_forLoop_Emit; reflexivity.
Qed.

Lemma hiveTrace_hiveAddrs (f : Flags) (h : Z) :
  hiveAddrs (hiveTrace f h) = [hiveAddrOf (7777 + h)].
Proof.
  unfold hiveTrace.
  destruct (centralized f && (h =? 0));
    rewrite ?hiveAddrs_app, createHive_hiveAddrs; reflexivity.
Qed.

Lemma hiveTrace_drivers (f : Flags) (h : Z) :
  inRange f -> 0 <= h < nhives f ->
  drivers (hiveTrace f h)
  = [(h * Z.quot (nswitches f) (nhives f), Z.quot (nswitches f) (nhives f))].
Proof.
  intros (Hnh & Hport & Hns) Hh. unfold hiveTrace.
  assert (Hd : wrap64 ((h + 1) * Z.quot (nswitches f) (nhives f)
                       - h * Z.quot (nswitches f) (nhives f))
               = Z.quot (nswitches f) (nhives f)).
  { replace ((h + 1) * Z.quot (nswitches f) (nhives f)
             - h * Z.quot (nswitches f) (nhives f))
      with (1 * Z.quot (nswitches f) (nhives f)) by lia.
    rewrite wrap64_small by (apply quot_multiple_bound; auto; lia). lia. }
  destruct (centralized f && (h =? 0));
    rewrite ?drivers_app, createHive_drivers, Hd; reflexivity.
Qed.

Lemma map_hives_ext {B} (f : Flags) (g1 g2 : Z -> B) :
  (forall h, 0 <= h < nhives f -> g1 h = g2 h) ->
  map g1 (seqZ 0 (nhives f)) = map g2 (seqZ 0 (nhives f)).
Proof.
  intros Hext. apply map_ext_in. intros h Hin.
  apply list_elem_of_In, elem_of_seqZ in Hin. apply Hext. lia.
Qed.

Lemma concat_map_nil {A B} (g : A -> list B) (l : list A) :
  (forall a, a ∈ l -> g a = []) -> concat (map g l) = [].
Proof.
  induction l as [|a l IH]; intros Hnil; [reflexivity|].
  simpl. rewrite Hnil by left. rewrite IH; [reflexivity|].
  intros b Hb. apply Hnil. right. exact Hb.
Qed.

Lemma emitted_by_hives (f : Flags) :
  emits (concat (map (hiveTrace f) (seqZ 0 (nhives f))))
  = concat (map (fun h => emits (hiveTrace f h)) (seqZ 0 (nhives f))).
Proof.
  rewrite (proj_concat emits emits_app eq_refl), map_map. reflexivity.
Qed.

Lemma quot_times (n m : Z) :
  0 <= n -> 0 < m -> m * Z.quot n m = n - n mod m.
Proof.
  intros Hn Hm. rewrite Z.quot_div_nonneg by lia.
  pose proof (Z.div_mod n m ltac:(lia)). lia.
Qed.

(** What [main] makes the drivers do, for flags in range and a number of
    switches that is not negative. *)
Lemma main_statQueries (f : Flags) :
  inRange f -> 0 <= nswitches f ->
  statQueries (emits (concat (map (hiveTrace f) (seqZ 0 (nhives f)))))
  = seqZ 0 (nswitches f - nswitches f mod nhives f).
Proof.
  intros Hf Hns. pose proof Hf as (Hnh & _).
  rewrite emitted_by_hives.
  rewrite (proj_concat statQueries statQueries_app eq_refl), map_map.
  rewrite (map_hives_ext f _
             (fun h => seqZ (h * Z.quot (nswitches f) (nhives f))
                            (Z.quot (nswitches f) (nhives f)))).
  - rewrite <- (Z2Nat.id (nhives f)) at 1 by lia.
    rewrite concat_seqZ_blocks
      by (rewrite Z.quot_div_nonneg by lia; apply Z.div_pos; lia).
    rewrite Z2Nat.id by lia. rewrite quot_times by lia. reflexivity.
  - intros h Hh. rewrite (hiveTrace_emits f h Hf Hh).
    rewrite !statQueries_app, statQueries_StatQuery, statQueries_SwitchJoined.
    destruct (centralized f && (h =? 0)); simpl; rewrite app_nil_r; reflexivity.
Qed.

Lemma main_switchJoins (f : Flags) :
  inRange f -> 0 <= nswitches f ->
  switchJoins (emits (concat (map (hiveTrace f) (seqZ 0 (nhives f)))))
  = if centralized f then seqZ 0 (nswitches f)
    else seqZ 0 (nswitches f - nswitches f mod nhives f).
Proof.
  intros Hf Hns. pose proof Hf as (Hnh & _).
  rewrite emitted_by_hives.
  rewrite (proj_concat switchJoins switchJoins_app eq_refl), map_map.
  rewrite (map_hives_ext f _
             (fun h => if centralized f
                       then if h =? 0 then seqZ 0 (nswitches f) else []
                       else seqZ (h * Z.quot (nswitches f) (nhives f))
                                 (Z.quot (nswitches f) (nhives f)))).
  - destruct (centralized f).
    + rewrite (seqZ_cons 0 (nhives f)) by lia. cbn [map concat].
      rewrite concat_map_nil; [apply app_nil_r|].
      intros h Hh. apply elem_of_seqZ in Hh.
      destruct (Z.eqb_spec h 0); [lia|reflexivity].
    + rewrite <- (Z2Nat.id (nhives f)) at 1 by lia.
      rewrite concat_seqZ_blocks
        by (rewrite Z.quot_div_nonneg by lia; apply Z.div_pos; lia).
      rewrite Z2Nat.id by lia. rewrite quot_times by lia. reflexivity.
  - intros h Hh. rewrite (hiveTrace_emits f h Hf Hh).
    rewrite !switchJoins_app, switchJoins_StatQuery, switchJoins_SwitchJoined.
    destruct (centralized f && (h =? 0)); reflexivity.
Qed.

Lemma main_drivers (f : Flags) :
  inRange f ->
  drivers (concat (map (hiveTrace f) (seqZ 0 (nhives f))))
  = map (fun h => (h * Z.quot (nswitches f) (nhives f),
                   Z.quot (nswitches f) (nhives f)))
        (seqZ 0 (nhives f)).
Proof.
  intros Hf.
  rewrite (proj_concat drivers drivers_app eq_refl), map_map.
  rewrite (map_hives_ext f _
             (fun h => [(h * Z.quot (nswitches f) (nhives f),
                         Z.quot (nswitches f) (nhives f))])).
  - generalize (seqZ 0 (nhives f)). intros l.
    induction l as [|h l IH]; simpl; congruence.
  - intros h Hh. apply hiveTrace_drivers; assumption.
Qed.

Lemma main_hiveAddrs (f : Flags) :
  hiveAddrs (concat (map (hiveTrace f) (seqZ 0 (nhives f))))
  = map hiveAddrOf (seqZ 7777 (nhives f)).
Proof.
  rewrite (proj_concat hiveAddrs hiveAddrs_app eq_refl), map_map.
  rewrite <- (fmap_add_seqZ 7777 0).
  change (Z.add 7777 <$> seqZ 0 (nhives f)) with (map (Z.add 7777) (seqZ 0 (nhives f))).
  rewrite map_map.
  generalize (seqZ 0 (nhives f)). intros l.
  induction l as [|h l IH]; simpl; [reflexivity|].
  rewrite hiveTrace_hiveAddrs, IH. reflexivity.
Qed.

#[local] Instance hiveAddrOf_inj : Inj (=) (=) hiveAddrOf.
Proof.
  intros p q Heq. unfold hiveAddrOf in Heq.
  apply (inj (String.app "127.0.0.1:")) in Heq.
  apply (inj pretty) in Heq. exact Heq.
Qed.

Lemma matrixUpdates_other_hives (f : Flags) (l : list Z) :
  inRange f ->
  (forall h, h ∈ l -> 0 < h < nhives f) ->
  matrixUpdates (concat (map (fun h => emits (hiveTrace f h)) l)) = O.
Proof.
  intros Hf. induction l as [|h l IH]; intros Hl; [reflexivity|].
  assert (Hh : 0 < h < nhives f) by (apply Hl; left).
  simpl. rewrite matrixUpdates_app, IH
    by (intros k Hk; apply Hl; right; exact Hk).
  rewrite (hiveTrace_emits f h Hf) by lia.
  destruct (Z.eqb_spec h 0) as [->|Hne]; [lia|].
  rewrite andb_false_r.
  rewrite !matrixUpdates_app, matrixUpdates_StatQuery, matrixUpdates_SwitchJoined.
  reflexivity.
Qed.

Lemma main_matrixUpdates (f : Flags) :
  inRange f ->
  exists rest,
    emits (concat (map (hiveTrace f) (seqZ 0 (nhives f))))
    = (if centralized f then [MatrixUpdate] else []) ++ rest /\
    matrixUpdates rest = O.
Proof.
  intros Hf. pose proof Hf as (Hnh & _).
  rewrite emitted_by_hives.
  rewrite (seqZ_cons 0 (nhives f)) by lia. cbn [map concat].
  rewrite (hiveTrace_emits f 0 Hf) by lia.
  rewrite andb_true_r. rewrite <- app_assoc.
  eexists. split; [reflexivity|].
  rewrite !matrixUpdates_app, matrixUpdates_StatQuery, matrixUpdates_SwitchJoined.
  rewrite matrixUpdates_other_hives; [reflexivity|exact Hf|].
  intros h Hh. apply elem_of_seqZ in Hh. lia.
Qed.

(** X1: for arguments that are Go ints, what [createHive] emits is, in
    this order: MatrixUpdate if the router is to be locked; one StatQuery
    per switch from [minDriver] up to [maxDriver - 1]; one SwitchJoined
    per switch from [minCol] up to [maxCol - 1].  A range whose upper
    end is not above its lower end contributes nothing. *)
Theorem createHive_emits (hiveAddr : string) (minDriver maxDriver minCol maxCol : Z)
    (stickyCollector lockRouter : bool) :
  int64 minDriver -> int64 maxDriver -> int64 minCol -> int64 maxCol ->
  emits (createHive hiveAddr minDriver maxDriver minCol maxCol
           stickyCollector lockRouter)
  = (if lockRouter then [MatrixUpdate] else [])
    ++ map StatQuery (seqZ minDriver (maxDriver - minDriver))
    ++ map SwitchJoined (seqZ minCol (maxCol - minCol)).
Proof. apply createHive_emits_eq. Qed.

Lemma createHive_emits_witness :
  emits (createHive "127.0.0.1:7777" 2 4 5 3 false true)
  = [MatrixUpdate] ++ map StatQuery (seqZ 2 (4 - 2))
      ++ map SwitchJoined (seqZ 5 (3 - 5)).
Proof.
  apply (createHive_emits "127.0.0.1:7777" 2 4 5 3 false true);
    unfold int64; lia.
Defined.

(** X2: with a positive number of hives (small enough for the ports) and
    a number of switches that is not negative, [main] gives hive [h] a
    driver for the [nswitches / nhives] switches from
    [h * (nswitches / nhives)] on, and the StatQuery messages emitted over
    all hives name the switches [0 .. nswitches - nswitches mod nhives - 1],
    each once and in ascending order: the last [nswitches mod nhives]
    switches are queried by no hive. *)
Theorem main_drivers_partition (f : Flags) :
  inRange f -> 0 <= nswitches f ->
  exists t : list Action,
    main f = Some t /\
    statQueries (emits t) = seqZ 0 (nswitches f - nswitches f mod nhives f) /\
    drivers t = map (fun h => (h * Z.quot (nswitches f) (nhives f),
                               Z.quot (nswitches f) (nhives f)))
                    (seqZ 0 (nhives f)).
Proof.
  intros Hf Hns. eexists. split; [apply main_hives; exact Hf|].
  split; [apply main_statQueries; assumption|apply main_drivers; exact Hf].
Qed.

Lemma inRange_unevenFlags : inRange unevenFlags.
Proof. unfold inRange, int64, unevenFlags; simpl; lia. Defined.

Lemma main_drivers_partition_witness :
  exists t : list Action,
    main unevenFlags = Some t /\
    statQueries (emits t) = seqZ 0 (7 - 7 mod 3) /\
    drivers t = map (fun h => (h * Z.quot 7 3, Z.quot 7 3)) (seqZ 0 3).
Proof.
  apply (main_drivers_partition unevenFlags inRange_unevenFlags).
  simpl. lia.
Defined.

(** X3: under the same conditions, the SwitchJoined messages emitted over
    all hives name every switch [0 .. nswitches - 1] when the collectors
    are centralized (all of them emitted by the first hive), and only the
    switches [0 .. nswitches - nswitches mod nhives - 1] otherwise. *)
Theorem main_collectors (f : Flags) :
  inRange f -> 0 <= nswitches f ->
  exists t : list Action,
    main f = Some t /\
    switchJoins (emits t)
    = if centralized f then seqZ 0 (nswitches f)
      else seqZ 0 (nswitches f - nswitches f mod nhives f).
Proof.
  intros Hf Hns. eexists. split; [apply main_hives; exact Hf|].
  apply main_switchJoins; assumption.
Qed.

Lemma main_collectors_witness :
  exists t : list Action,
    main unevenFlags = Some t /\ switchJoins (emits t) = seqZ 0 7.
Proof.
  apply (main_collectors unevenFlags inRange_unevenFlags).
  simpl. lia.
Defined.

(** X4: the hives [main] creates listen on 127.0.0.1 at the ports 7777,
    7778, ... in the order of their creation, one address per hive and no
    address twice. *)
Theorem main_hive_addresses (f : Flags) :
  inRange f ->
  exists t : list Action,
    main f = Some t /\
    hiveAddrs t = map hiveAddrOf (seqZ 7777 (nhives f)) /\
    NoDup (hiveAddrs t).
Proof.
  intros Hf. eexists. split; [apply main_hives; exact Hf|].
  rewrite main_hiveAddrs. split; [reflexivity|].
  apply (NoDup_fmap_2 hiveAddrOf), NoDup_seqZ.
Qed.

Lemma main_hive_addresses_witness :
  exists t : list Action,
    main unevenFlags = Some t /\
    hiveAddrs t = map hiveAddrOf (seqZ 7777 3) /\
    NoDup (hiveAddrs t).
Proof. apply (main_hive_addresses unevenFlags inRange_unevenFlags). Defined.

(** X5: with [-nhives 0], [main] stops in the division by zero before
    any hive is created; with a negative number of hives it creates none
    and has nothing to wait for. *)
Theorem main_without_hives (f : Flags) :
  (nhives f = 0 -> main f = None) /\
  (nhives f < 0 -> main f = Some []).
Proof.
  unfold main. split; intros Hnh.
  - rewrite Hnh. reflexivity.
  - destruct (Z.eqb_spec (nhives f) 0) as [H0|_]; [lia|].
    rewrite Z2Nat.nonpos by lia. reflexivity.
Qed.

Lemma main_without_hives_witness :
  main {| nswitches := 4; nhives := 0; stickycollectors := false;
          centralized := false |} = None /\
  main {| nswitches := 4; nhives := -2; stickycollectors := false;
          centralized := true |} = Some [].
Proof.
  split.
  - apply (proj1 (main_without_hives _)). reflexivity.
  - apply (proj2 (main_without_hives _)). reflexivity.
Defined.

(** X6: when the collectors are centralized, the first message [main]
    emits is the MatrixUpdate that locks the router on the first hive,
    and no other MatrixUpdate is emitted; when they are not, none is
    emitted at all. *)
Theorem main_router_lock (f : Flags) :
  inRange f ->
  exists (t : list Action) (rest : list Msg),
    main f = Some t /\
    emits t = (if centralized f then [MatrixUpdate] else []) ++ rest /\
    matrixUpdates rest = O.
Proof.
  intros Hf. destruct (main_matrixUpdates f Hf) as (rest & Hemits & Hrest).
  eexists. exists rest. split; [apply main_hives; exact Hf|].
  split; assumption.
Qed.

Lemma main_router_lock_witness :
  exists (t : list Action) (rest : list Msg),
    main unevenFlags = Some t /\
    emits t = [MatrixUpdate] ++ rest /\
    matrixUpdates rest = O.
Proof. apply (main_router_lock unevenFlags inRange_unevenFlags). Defined.

End TeFacts.
